(** * NXT-Logger: the kinematic-derivative pipeline of [analyzer.py]

    A shallow embedding of the numeric core of the repository:
    [analyzer.py] ([moving_average], [safe_sample_rate],
    [summarize_stats], [analyze] with its reading and validation of the
    table) and [distance_log.py] ([clean_name], the loop of [log_data],
    the smoothing lines of [process_and_plot]).

    Numbers.  A pandas float64 cell is modelled as an extended rational:
    a finite rational, one of the two infinities, or NaN (the missing
    marker).  The special values follow IEEE-754 (NaN is absorbing,
    [inf - inf] and [inf / inf] are NaN, a non-zero finite value divided
    by zero is an infinity, every comparison with NaN is false).  Finite
    arithmetic is exact: rounding, overflow and the sign of zero are not
    modelled.

    Tables.  A DataFrame is a record of columns of equal length; a Series
    is a [list cell] indexed from 0 (the index after [reset_index]). *)

From Stdlib Require Import List ZArith QArith Qcanon Qround Bool Lia Sorted.
From Stdlib Require Ascii String.
Import String.StringSyntax.
Delimit Scope string_scope with string.
Import ListNotations.

Set Implicit Arguments.

(** ** Cells *)

Inductive cell : Type :=
| Fin (q : Qc)
| PInf
| NInf
| NaN.

Definition qc_of_Z (z : Z) : Qc := Q2Qc (inject_Z z).
Definition frac (n : Z) (d : positive) : Qc := Q2Qc (n # d).

Definition Qcltb (a b : Qc) : bool :=
  match (a ?= b)%Qc with Lt => true | _ => false end.
Definition Qceqb (a b : Qc) : bool :=
  match (a ?= b)%Qc with Eq => true | _ => false end.

(** [pd.isna] / [pd.notna]: only NaN is missing, an infinity is not. *)
Definition isna (x : cell) : bool :=
  match x with NaN => true | _ => false end.
Definition notna (x : cell) : bool := negb (isna x).

(** [np.isinf] *)
Definition isinf (x : cell) : bool :=
  match x with PInf | NInf => true | _ => false end.

(** [np.isfinite] *)
Definition isfinite (x : cell) : bool :=
  match x with Fin _ => true | _ => false end.

Definition fneg (x : cell) : cell :=
  match x with
  | Fin a => Fin (- a)
  | PInf => NInf
  | NInf => PInf
  | NaN => NaN
  end.

(** float addition *)
Definition fadd (x y : cell) : cell :=
  match x, y with
  | NaN, _ | _, NaN => NaN
  | Fin a, Fin b => Fin (a + b)
  | PInf, NInf | NInf, PInf => NaN
  | PInf, _ | _, PInf => PInf
  | NInf, _ | _, NInf => NInf
  end.

(** float subtraction.  On two finite cells the difference is the exact
    one: the float64 operation rounds it, and yields an infinity when it
    overflows. *)
Definition fsub (x y : cell) : cell := fadd x (fneg y).

(** float division as numpy performs it on arrays (no exception).  On
    two finite cells with a non-zero divisor the quotient is the exact
    one: the float64 operation rounds it, and yields an infinity when it
    overflows.  What the derivative columns satisfy after the Sanitizer is
    therefore stated from the cells the Series holds before it, not from
    the input table. *)
Definition fdiv (x y : cell) : cell :=
  match x, y with
  | NaN, _ | _, NaN => NaN
  | Fin a, Fin b =>
      if Qceqb b 0 then
        (if Qceqb a 0 then NaN else if Qcltb 0 a then PInf else NInf)
      else Fin (a / b)
  | Fin _, _ => Fin 0
  | PInf, Fin b => if Qcltb b 0 then NInf else PInf
  | NInf, Fin b => if Qcltb b 0 then PInf else NInf
  | _, _ => NaN
  end.

(** [x > y] on floats *)
Definition fgt (x y : cell) : bool :=
  match x, y with
  | NaN, _ | _, NaN => false
  | Fin a, Fin b => Qcltb b a
  | PInf, PInf => false
  | PInf, _ => true
  | Fin _, NInf => true
  | _, _ => false
  end.

(** [x <= y] on floats *)
Definition fle (x y : cell) : bool :=
  match x, y with
  | NaN, _ | _, NaN => false
  | _, _ => negb (fgt x y)
  end.

(** ** Series operations of pandas *)

Fixpoint map2 (A B C : Type) (f : A -> B -> C) (xs : list A) (ys : list B)
  : list C :=
  match xs, ys with
  | x :: xs', y :: ys' => f x y :: map2 f xs' ys'
  | _, _ => []
  end.

(** [Series.diff()]: the first cell is NaN, cell [i] is [s[i] - s[i-1]]. *)
Definition diff (s : list cell) : list cell :=
  match s with
  | [] => []
  | _ :: tl => NaN :: map2 fsub tl s
  end.

(** [a / b] on two Series that share their index. *)
Definition series_div (a b : list cell) : list cell := map2 fdiv a b.

(** Boolean indexing [s[mask]] followed by [reset_index(drop=True)]. *)
Fixpoint select (A : Type) (mask : list bool) (s : list A) : list A :=
  match mask, s with
  | m :: mask', x :: s' => if m then x :: select mask' s' else select mask' s'
  | _, _ => []
  end.

(** The positions (in the table before filtering) of the rows a mask keeps. *)
Fixpoint kept_from (j : nat) (mask : list bool) : list nat :=
  match mask with
  | [] => []
  | m :: mask' => if m then j :: kept_from (S j) mask' else kept_from (S j) mask'
  end.

Definition sanitize (x : cell) : cell := if isinf x then NaN else x.

(** ** Rolling windows

    [Series.rolling(window, center, min_periods).mean()] for an integer
    window.  pandas validates the arguments (a negative window, a negative
    [min_periods] or [min_periods > window] raise [ValueError]), turns
    infinite inputs into NaN before the windowed computation, places the
    window of index [i] at [[i + 1 + offset - window, i + 1 + offset)]
    clipped to the Series ([offset = (window - 1) // 2] when centered, 0
    otherwise), and yields the mean of the non-missing cells of the window
    when there are at least [min_periods] (and at least one) of them, NaN
    otherwise.  This is the behaviour of pandas 1.x and 2.x, the versions
    that accept [fillna(method="bfill")]. *)

Definition clip (lo hi x : Z) : Z := Z.max lo (Z.min hi x).

Definition window_start (n : nat) (window : Z) (center : bool) (i : nat) : nat :=
  let offset := (if center then (window - 1) / 2 else 0)%Z in
  Z.to_nat (clip 0 (Z.of_nat n) (Z.of_nat i + 1 + offset - window)%Z).

Definition window_end (n : nat) (window : Z) (center : bool) (i : nat) : nat :=
  let offset := (if center then (window - 1) / 2 else 0)%Z in
  Z.to_nat (clip 0 (Z.of_nat n) (Z.of_nat i + 1 + offset)%Z).

Definition slice (A : Type) (lo hi : nat) (s : list A) : list A :=
  firstn (hi - lo)%nat (skipn lo s).

Fixpoint observed (s : list cell) : list Qc :=
  match s with
  | [] => []
  | Fin q :: tl => q :: observed tl
  | _ :: tl => observed tl
  end.

Definition Qcsum (l : list Qc) : Qc := fold_right Qcplus 0%Qc l.

Definition Qc_of_nat (n : nat) : Qc := qc_of_Z (Z.of_nat n).

Definition calc_mean (min_periods : Z) (w : list cell) : cell :=
  let obs := observed w in
  let nobs := length obs in
  if ((min_periods <=? Z.of_nat nobs)%Z && (0 <? nobs)%nat)%bool
  then Fin (Qcsum obs / Qc_of_nat nobs)
  else NaN.

Definition prep_values (s : list cell) : list cell := map sanitize s.

Definition rolling_mean (s : list cell) (window : Z) (center : bool)
  (min_periods : option Z) : option (list cell) :=
  let minp := match min_periods with Some m => m | None => window end in
  if ((window <? 0) || (minp <? 0) || (window <? minp))%Z%bool then None
  else
    let values := prep_values s in
    let n := length values in
    Some (map (fun i =>
                 calc_mean minp
                   (slice (window_start n window center i)
                          (window_end n window center i) values))
              (seq 0 n)).

(** [Series.fillna(method="bfill")]: a missing cell takes the next
    non-missing value after it, when there is one. *)
Fixpoint bfill (s : list cell) : list cell :=
  match s with
  | [] => []
  | x :: tl =>
      let r := bfill tl in
      (if isna x then match r with y :: _ => y | [] => NaN end else x) :: r
  end.

(** [Series.mean()] with the default [skipna=True]. *)
Definition series_mean (s : list cell) : cell :=
  let vals := filter notna s in
  match vals with
  | [] => NaN
  | _ => fdiv (fold_right fadd (Fin 0) vals) (Fin (Qc_of_nat (length vals)))
  end.

(** Python's [round(x, 1)]: to the nearest tenth, ties to the even
    neighbour; NaN and the infinities are returned unchanged. *)
Definition round_half_even (q : Q) : Z :=
  let f := Qfloor q in
  match Qcompare (q - inject_Z f) (1 # 2) with
  | Lt => f
  | Gt => (f + 1)%Z
  | Eq => if Z.even f then f else (f + 1)%Z
  end.

Definition round1 (x : cell) : cell :=
  match x with
  | Fin q => Fin (Q2Qc (inject_Z (round_half_even (q * 10)) / 10))
  | _ => x
  end.

(** Scalar division [a / b].  A Python float divisor equal to zero raises
    [ZeroDivisionError]; the model takes this strict reading, so that
    [None] is the crash. *)
Definition scalar_div (a b : cell) : option cell :=
  match b with
  | Fin q => if Qceqb q 0 then None else Some (fdiv a b)
  | _ => Some (fdiv a b)
  end.

(** ** analyzer.py *)

(** The DataFrame [df] of [analyze] once all columns exist. *)
Record frame : Type := mkFrame {
  t : list cell;
  distance : list cell;
  dt : list cell;
  velocity_raw : list cell;
  acceleration_raw : list cell;
  distance_f : list cell;
  velocity_f : list cell;
  acceleration_f : list cell
}.

(** [signal.rolling(window=window, center=True, min_periods=1).mean()] *)
Definition moving_average (signal : list cell) (window : Z)
  : option (list cell) :=
  rolling_mean signal window true (Some 1%Z).

(** [safe_sample_rate]: [None] would be an exception. *)
Definition safe_sample_rate (df : frame) : option cell :=
  let avg_dt := series_mean (dt df) in
  if (notna avg_dt && fgt avg_dt (Fin 0))%bool
  then option_map round1 (scalar_div (Fin 1) avg_dt)
  else Some NaN.

(** The threshold [1e-4] of the Time-Delta filter. *)
Definition eps : cell := Fin (frac 1 10000).

(** Lines 93-94 of [analyze]: [df["dt"] = df["t"].diff()], then
    [df = df[df["dt"] > 1e-4].reset_index(drop=True)].  The input is the
    table read from the CSV, one pair [(t, distance)] per row. *)
Definition dt_before (rows : list (cell * cell)) : list cell :=
  diff (map fst rows).

Definition dt_mask (rows : list (cell * cell)) : list bool :=
  map (fun x => fgt x eps) (dt_before rows).

(** The table after the Time-Delta step: columns [t], [distance], [dt]. *)
Record timed : Type := mkTimed {
  td_t : list cell;
  td_distance : list cell;
  td_dt : list cell
}.

Definition time_delta (rows : list (cell * cell)) : timed :=
  let mask := dt_mask rows in
  {| td_t := select mask (map fst rows);
     td_distance := select mask (map snd rows);
     td_dt := select mask (dt_before rows) |}.

(** Positions in the input table of the rows that survive. *)
Definition kept (rows : list (cell * cell)) : list nat :=
  kept_from 0 (dt_mask rows).

(** Lines 96-103: raw derivatives, filtered distance, filtered
    derivatives.  [None] when [rolling] rejects the window. *)
Definition derive (td : timed) (window : Z) : option frame :=
  let v := series_div (diff (td_distance td)) (td_dt td) in
  let a := series_div (diff v) (td_dt td) in
  match moving_average (td_distance td) window with
  | None => None
  | Some df_ =>
      let vf := series_div (diff df_) (td_dt td) in
      let af := series_div (diff vf) (td_dt td) in
      Some {| t := td_t td; distance := td_distance td; dt := td_dt td;
              velocity_raw := v; acceleration_raw := a;
              distance_f := df_; velocity_f := vf; acceleration_f := af |}
  end.

(** Line 106: [df.replace([np.inf, -np.inf], np.nan, inplace=True)], on
    every column of the DataFrame. *)
Definition replace_inf (df : frame) : frame :=
  {| t := map sanitize (t df);
     distance := map sanitize (distance df);
     dt := map sanitize (dt df);
     velocity_raw := map sanitize (velocity_raw df);
     acceleration_raw := map sanitize (acceleration_raw df);
     distance_f := map sanitize (distance_f df);
     velocity_f := map sanitize (velocity_f df);
     acceleration_f := map sanitize (acceleration_f df) |}.

(** [analyze], from the parsed table to the DataFrame written to the
    processed CSV (lines 93-106).  The input is a table that passed the
    validation of line 88 with float columns [t] and [distance], no two
    columns sharing a label; a text column or a repeated label is outside
    this type. *)
Definition analyze (rows : list (cell * cell)) (window : Z) : option frame :=
  option_map replace_inf (derive (time_delta rows) window).

(** ** distance_log.py *)

(** Line 104 of [process_and_plot]:
    [df["x_raw"].rolling(window=window).mean().fillna(method="bfill")] *)
Definition x_filtered (x_raw : list cell) (window : Z) : option (list cell) :=
  option_map bfill (rolling_mean x_raw window false None).

(** ** Boolean equality of cells, columns and frames *)

Definition cell_eqb (x y : cell) : bool :=
  match x, y with
  | Fin a, Fin b => Qceqb a b
  | PInf, PInf | NInf, NInf | NaN, NaN => true
  | _, _ => false
  end.

Fixpoint cells_eqb (xs ys : list cell) : bool :=
  match xs, ys with
  | [], [] => true
  | x :: xs', y :: ys' => cell_eqb x y && cells_eqb xs' ys'
  | _, _ => false
  end.

Definition frame_eqb (a b : frame) : bool :=
  cells_eqb (t a) (t b) && cells_eqb (distance a) (distance b) &&
  cells_eqb (dt a) (dt b) &&
  cells_eqb (velocity_raw a) (velocity_raw b) &&
  cells_eqb (acceleration_raw a) (acceleration_raw b) &&
  cells_eqb (distance_f a) (distance_f b) &&
  cells_eqb (velocity_f a) (velocity_f b) &&
  cells_eqb (acceleration_f a) (acceleration_f b).

(** Literals: the integer [n] and the fraction [n/d] as cells. *)
Definition z (n : Z) : cell := Fin (qc_of_Z n).
Definition q (n : Z) (d : positive) : cell := Fin (frac n d).

(** * Vocabulary of the properties *)

Definition no_inf (x : cell) : Prop := isinf x = false.

Definition finite (x : cell) : Prop := isfinite x = true.

Definition finite_or_missing (x : cell) : Prop :=
  isfinite x = true \/ isna x = true.

(** The number a finite cell holds. *)
Definition value (x : cell) : Qc :=
  match x with Fin a => a | _ => 0 end.

(** No cell of the input table is infinite. *)
Definition rows_no_inf (rows : list (cell * cell)) : Prop :=
  Forall (fun r => no_inf (fst r) /\ no_inf (snd r)) rows.

(** [(x[i] - x[i-1]) / dt[i]] *)
Definition finite_difference (x dts : list cell) (i : nat) : cell :=
  fdiv (fsub (nth i x NaN) (nth (i - 1) x NaN)) (nth i dts NaN).

(** The cell at index [i], when the Series has one, is the missing marker. *)
Definition missing_at (s : list cell) (i : nat) : Prop :=
  forall x, nth_error s i = Some x -> x = NaN.

(** The equalities of the raw Finite-Difference Estimator, read on the
    columns of one DataFrame. *)
Definition raw_derivative_law (df : frame) : Prop :=
  (forall i, (0 < i < length (velocity_raw df))%nat ->
     nth i (velocity_raw df) NaN = finite_difference (distance df) (dt df) i) /\
  missing_at (velocity_raw df) 0 /\
  (forall i, (1 < i < length (acceleration_raw df))%nat ->
     nth i (acceleration_raw df) NaN =
     finite_difference (velocity_raw df) (dt df) i) /\
  missing_at (acceleration_raw df) 0 /\
  missing_at (acceleration_raw df) 1.

(** No cell of the columns the raw estimator reads and writes is
    infinite. *)
Definition raw_estimator_no_inf (df : frame) : Prop :=
  Forall (Forall no_inf)
    [distance df; dt df; velocity_raw df; acceleration_raw df].

(** [dt[i] = t[i] - t[i-1]] on the columns of one DataFrame. *)
Definition consecutive_dt_law (df : frame) : Prop :=
  forall i, (0 < i < length (dt df))%nat ->
    nth i (dt df) NaN = fsub (nth i (t df) NaN) (nth (i - 1) (t df) NaN).

(** The columns computed by [analyze]. *)
Definition derived_columns (df : frame) : list (list cell) :=
  [dt df; velocity_raw df; acceleration_raw df;
   distance_f df; velocity_f df; acceleration_f df].

(** The arithmetic mean of [signal[lo], ..., signal[hi]]. *)
Definition arithmetic_mean (signal : list cell) (lo hi : nat) : Qc :=
  Qcsum (map (fun j => value (nth j signal NaN)) (seq lo (hi + 1 - lo)))
  / Qc_of_nat (hi + 1 - lo).

(** The rate as the specification words it: [round(1 / mean(dt), 1)] when
    [mean(dt) > 0], the undefined marker otherwise. *)
Definition sample_rate_as_specified (df : frame) : cell :=
  let m := series_mean (dt df) in
  if fgt m (Fin 0) then round1 (fdiv (Fin 1) m) else NaN.

(** What the static-object example of the specification says of the
    processed Series. *)
Definition static_example_as_specified (df : frame) : Prop :=
  dt df = [NaN; q 1 20; q 1 20; q 1 20] /\
  velocity_raw df = [NaN; z 0; z 0; z 0] /\
  acceleration_raw df = [NaN; NaN; z 0; z 0] /\
  distance_f df = [z 10; z 10; z 10; z 10] /\
  Forall (fun x => x = NaN \/ x = z 0) (velocity_f df) /\
  Forall (fun x => x = NaN \/ x = z 0) (acceleration_f df).

(** ** Example tables *)

(** A static object sampled every 50 ms, the decimals read as exact
    fractions. *)
Definition static_rows : list (cell * cell) :=
  [(z 0, z 10); (q 1 20, z 10); (q 1 10, z 10); (q 3 20, z 10)].

(** The float64 numbers that [read_csv] makes of the decimals [0.05],
    [0.10] and [0.15] (the nearest binary fractions), and the float64
    difference [0.15 - 0.10], which prints as [0.04999999999999999]. *)
Definition f64_0_05 : cell := q 3602879701896397 72057594037927936.
Definition f64_0_10 : cell := q 3602879701896397 36028797018963968.
Definition f64_0_15 : cell := q 5404319552844595 36028797018963968.
Definition f64_0_15_minus_0_10 : cell := q 900719925474099 18014398509481984.

(** The static object as [analyze] receives it, and the DataFrame
    [analyze] builds for it with [W = 3]: the row of [t = 0] is gone. *)
Definition static_rows_f64 : list (cell * cell) :=
  [(z 0, z 10); (f64_0_05, z 10); (f64_0_10, z 10); (f64_0_15, z 10)].

Definition static_frame_f64 : frame :=
  {| t := [f64_0_05; f64_0_10; f64_0_15];
     distance := [z 10; z 10; z 10];
     dt := [f64_0_05; f64_0_05; f64_0_15_minus_0_10];
     velocity_raw := [NaN; z 0; z 0];
     acceleration_raw := [NaN; NaN; z 0];
     distance_f := [z 10; z 10; z 10];
     velocity_f := [NaN; z 0; z 0];
     acceleration_f := [NaN; NaN; z 0] |}.

(** A table whose last timestamp is infinite. *)
Definition inf_time_rows : list (cell * cell) :=
  [(z 0, z 5); (z 1, z 5); (PInf, z 5)].

(** A table with an out-of-order timestamp. *)
Definition unordered_rows : list (cell * cell) :=
  [(z 0, z 1); (z 2, z 1); (z 1, z 1); (z 3, z 1)].

(** A table with a duplicate timestamp. *)
Definition duplicate_rows : list (cell * cell) :=
  [(z 0, z 7); (z 1, z 7); (z 1, z 8); (z 2, z 9)].

(** Tables with an infinite distance reading: in the only retained row,
    and after a finite one (the raw velocity is then infinite before the
    Sanitizer). *)
Definition inf_distance_rows : list (cell * cell) :=
  [(z 0, z 0); (z 1, PInf)].

Definition inf_jump_rows : list (cell * cell) :=
  [(z 0, z 0); (z 1, z 1); (z 2, PInf)].

(** Tables of two rows and of one row. *)
Definition two_rows : list (cell * cell) :=
  [(z 0, z 10); (q 1 2, z 10)].

Definition one_row : list (cell * cell) := [(z 0, z 10)].

(** A distance series growing by 3 per sample. *)
Definition ramp : list cell := [z 0; z 3; z 6; z 9; z 12].

(** * Vocabulary of the further properties *)

(** The equalities of the Filtered Derivative Estimator (lines 102-103 of
    [analyze]), read on the columns of one DataFrame. *)
Definition filtered_derivative_law (df : frame) : Prop :=
  (forall i, (0 < i < length (velocity_f df))%nat ->
     nth i (velocity_f df) NaN = finite_difference (distance_f df) (dt df) i) /\
  missing_at (velocity_f df) 0 /\
  (forall i, (1 < i < length (acceleration_f df))%nat ->
     nth i (acceleration_f df) NaN =
     finite_difference (velocity_f df) (dt df) i) /\
  missing_at (acceleration_f df) 0 /\
  missing_at (acceleration_f df) 1.

(** No cell of the columns the filtered estimator reads and writes is
    infinite. *)
Definition filtered_estimator_no_inf (df : frame) : Prop :=
  Forall (Forall no_inf)
    [distance_f df; dt df; velocity_f df; acceleration_f df].

(** Every column of the DataFrame written to the processed CSV. *)
Definition all_columns (df : frame) : list (list cell) :=
  [t df; distance df; dt df; velocity_raw df; acceleration_raw df;
   distance_f df; velocity_f df; acceleration_f df].

(** ** analyzer.py: [summarize_stats] *)

(** [Series.max()] with the default [skipna=True]: the greatest
    non-missing cell, NaN when there is none. *)
Definition fmax (a b : cell) : cell := if fgt b a then b else a.

Definition series_max (s : list cell) : cell :=
  match filter notna s with
  | [] => NaN
  | x :: tl => fold_left fmax tl x
  end.

(** The five numbers [summarize_stats] prints (before their formatting
    with two decimals), in the order of the printed lines. *)
Record summary : Type := mkSummary {
  duration : cell;
  max_velocity_raw : cell;
  max_velocity_f : cell;
  max_acceleration_raw : cell;
  max_acceleration_f : cell
}.

Definition summarize_stats (df : frame) : summary :=
  {| duration := series_max (t df);
     max_velocity_raw := series_max (velocity_raw df);
     max_velocity_f := series_max (velocity_f df);
     max_acceleration_raw := series_max (acceleration_raw df);
     max_acceleration_f := series_max (acceleration_f df) |}.

(** [m] is the greatest non-missing cell of [s], or missing when [s] has
    no other cell. *)
Definition greatest_of (m : cell) (s : list cell) : Prop :=
  (m = NaN /\ Forall (fun x => x = NaN) s) \/
  (m <> NaN /\ In m s /\
   forall x, In x s -> x <> NaN -> fle x m = true).

(** ** distance_log.py: the filtered columns of [process_and_plot] *)

(** Lines 104-106 of [process_and_plot]: [x_filtered], then
    [v_filtered = x_filtered.diff() / t.diff()] and
    [a_filtered = v_filtered.diff() / t.diff()].  The arguments are the
    columns [t] and [x_raw] of the table as it stands at line 104, that
    is after the sort by [t] of lines 94-101, which is not modelled.
    [None] is the [ValueError] of [rolling] on a negative window. *)
Record smoothed : Type := mkSmoothed {
  sm_x_filtered : list cell;
  sm_v_filtered : list cell;
  sm_a_filtered : list cell
}.

Definition filtered_columns (ts x_raw : list cell) (window : Z)
  : option smoothed :=
  match x_filtered x_raw window with
  | None => None
  | Some xf =>
      let v := series_div (diff xf) (diff ts) in
      Some {| sm_x_filtered := xf;
              sm_v_filtered := v;
              sm_a_filtered := series_div (diff v) (diff ts) |}
  end.

(** ** distance_log.py: the sampling loop of [log_data] *)

(** Python's [round(x, n)]: to the nearest multiple of [10^-n], ties to
    the even neighbour. *)
Definition round_digits (n : nat) (x : cell) : cell :=
  match x with
  | Fin a =>
      Fin (Q2Qc (inject_Z (round_half_even (a * inject_Z (10 ^ Z.of_nat n)))
                 / inject_Z (10 ^ Z.of_nat n)))
  | _ => x
  end.

(** The threshold [1e-3] of the loop. *)
Definition eps_log : cell := Fin (frac 1 1000).

(** The variables the loop carries from one sample to the next. *)
Record loop_state : Type := mkLoopState {
  prev_time : option cell;
  prev_distance : option cell;
  prev_velocity : option cell
}.

(** [prev_time = prev_distance = prev_velocity = None] *)
Definition initial_state : loop_state :=
  {| prev_time := None; prev_distance := None; prev_velocity := None |}.

(** A row written to the log: [elapsed, distance, velocity, acceleration]
    under the headers [t (s)], [x_raw (cm)], [v_raw (cm/s)],
    [a_raw (cm/s2)]. *)
Record log_row : Type := mkLogRow {
  lr_t : cell;
  lr_x_raw : cell;
  lr_v_raw : cell;
  lr_a_raw : cell
}.

(** One pass through the body of the [while True] loop (lines 63-83), for
    the sample [current_time = time.time()], [distance =
    sensor.get_sample()].  [None] is an exception: the [TypeError] of
    [distance - None] or the [ZeroDivisionError] of a division. *)
Definition log_step (program_start : cell) (st : loop_state)
  (current_time distance : cell) : option (log_row * loop_state) :=
  let elapsed := round_digits 3 (fsub current_time program_start) in
  let derivatives : option (cell * cell) :=
    match prev_time st with
    | None => Some (NaN, NaN)
    | Some pt =>
        let dt := fsub current_time pt in
        if fgt dt eps_log then
          match prev_distance st with
          | None => None
          | Some pd =>
              let dx := fsub distance pd in
              match scalar_div dx dt with
              | None => None
              | Some velocity =>
                  match prev_velocity st with
                  | None => Some (velocity, NaN)
                  | Some pv =>
                      let dv := fsub velocity pv in
                      match scalar_div dv dt with
                      | None => None
                      | Some acceleration => Some (velocity, acceleration)
                      end
                  end
              end
          end
        else Some (NaN, NaN)
    end in
  match derivatives with
  | None => None
  | Some (velocity, acceleration) =>
      Some ({| lr_t := elapsed; lr_x_raw := distance;
               lr_v_raw := velocity; lr_a_raw := acceleration |},
            {| prev_time := Some current_time;
               prev_distance := Some distance;
               prev_velocity := Some velocity |})
  end.

(** The loop over the successive samples [(time.time(),
    sensor.get_sample())] taken until the user stops it; the result is
    the list of rows written. *)
Fixpoint log_loop (program_start : cell) (st : loop_state)
  (samples : list (cell * cell)) : option (list log_row) :=
  match samples with
  | [] => Some []
  | (current_time, distance) :: rest =>
      match log_step program_start st current_time distance with
      | None => None
      | Some (row, st') =>
          option_map (cons row) (log_loop program_start st' rest)
      end
  end.

Definition log_data (program_start : cell) (samples : list (cell * cell))
  : option (list log_row) :=
  log_loop program_start initial_state samples.

(** The velocity and acceleration the loop writes for the sample [cur]
    that follows the sample [prev], whose written velocity was [prev_v]. *)
Definition derivatives_after (prev : cell * cell) (prev_v : cell)
  (cur : cell * cell) : cell * cell :=
  let dt := fsub (fst cur) (fst prev) in
  if fgt dt eps_log then
    let v := fdiv (fsub (snd cur) (snd prev)) dt in
    (v, fdiv (fsub v prev_v) dt)
  else (NaN, NaN).

Definition missing_row : log_row :=
  {| lr_t := NaN; lr_x_raw := NaN; lr_v_raw := NaN; lr_a_raw := NaN |}.

(** The state of the loop after the sample [s], written with velocity [v]. *)
Definition state_after (s : cell * cell) (v : cell) : loop_state :=
  {| prev_time := Some (fst s); prev_distance := Some (snd s);
     prev_velocity := Some v |}.

Definition row_after (program_start : cell) (prev : cell * cell)
  (prev_v : cell) (cur : cell * cell) : log_row :=
  {| lr_t := round_digits 3 (fsub (fst cur) program_start);
     lr_x_raw := snd cur;
     lr_v_raw := fst (derivatives_after prev prev_v cur);
     lr_a_raw := snd (derivatives_after prev prev_v cur) |}.

(** A run of the logger: six samples 50 ms apart, except the fourth,
    which comes half a millisecond after the third. *)
Definition jitter_samples : list (cell * cell) :=
  [(q 0 1, z 10); (q 1 20, z 12); (q 1 10, z 15);
   (q 201 2000, z 15); (q 3 20, z 18); (q 1 5, z 20)].

(** ** Python strings *)

(** A Python [str] is a sequence of Unicode code points. *)
Definition code_points (s : String.string) : list N :=
  map Ascii.N_of_ascii (String.list_ascii_of_string s).

(** [str.isspace] on one character, which is also what [str.strip()]
    removes and what [\s] matches in a [str] pattern: the code points
    U+0009-000D, U+001C-0020, U+0085, U+00A0, U+1680, U+2000-200A,
    U+2028, U+2029, U+202F, U+205F and U+3000. *)
Definition isspace (c : N) : bool :=
  ((9 <=? c) && (c <=? 13) || (28 <=? c) && (c <=? 32) ||
   (c =? 133) || (c =? 160) || (c =? 5760) ||
   (8192 <=? c) && (c <=? 8202) ||
   (c =? 8232) || (c =? 8233) || (c =? 8239) || (c =? 8287) ||
   (c =? 12288))%N%bool.

Fixpoint lstrip (s : list N) : list N :=
  match s with
  | c :: tl => if isspace c then lstrip tl else s
  | [] => []
  end.

Definition rstrip (s : list N) : list N := rev (lstrip (rev s)).

(** [s.strip()] *)
Definition strip (s : list N) : list N := rstrip (lstrip s).

Fixpoint str_eqb (a b : list N) : bool :=
  match a, b with
  | [], [] => true
  | x :: a', y :: b' => (x =? y)%N && str_eqb a' b'
  | _, _ => false
  end.

(** [s.endswith(suffix)] *)
Definition endswith (s suffix : list N) : bool :=
  (length suffix <=? length s)%nat &&
  str_eqb (skipn (length s - length suffix) s) suffix.

(** [s.lower()], given on the letters A-Z only.  Every other code point
    is left as it is, which is not Python's result outside ASCII; but no
    code point other than an ASCII capital lowercases to a string that
    ends in an ASCII character other than [i] and [k], so the test
    [s.lower().endswith(".csv")] is the same. *)
Definition lower_char (c : N) : N :=
  if ((65 <=? c) && (c <=? 90))%N%bool then (c + 32)%N else c.

Definition lower (s : list N) : list N := map lower_char s.

(** ** distance_log.py: [clean_name] *)

(** [INVALID_FILENAME_CHARS]: the characters of the raw string literal of
    line 13, that is [<], [>], [:], the double quote (code point 34),
    [/], two backslashes, [|], [?] and [!]. *)
Definition INVALID_FILENAME_CHARS : list N :=
  code_points "<>:"%string ++ [34%N] ++ code_points "/\\|?!"%string.

Definition is_invalid (c : N) : bool :=
  existsb (N.eqb c) INVALID_FILENAME_CHARS.

(** [re.sub(f"[{re.escape(INVALID_FILENAME_CHARS)}]", "_", name)] *)
Definition replace_invalid (name : list N) : list N :=
  map (fun c => if is_invalid c then 95%N else c) name.

Definition dot_csv : list N := code_points ".csv"%string.

Definition clean_name (name : list N) : list N :=
  let name := strip name in
  let name := replace_invalid name in
  match name with
  | [] => []
  | _ =>
      if negb (endswith (lower name) dot_csv) then name ++ dot_csv else name
  end.

(** The string is empty or its first character is not whitespace. *)
Definition starts_clean (s : list N) : Prop :=
  match s with
  | [] => True
  | c :: _ => isspace c = false
  end.

(** The string is made of whitespace only (the empty string included). *)
Definition blank (s : list N) : Prop := Forall (fun c => isspace c = true) s.

(** ** analyzer.py: reading the file and normalizing the headers *)

(** The encodings [analyze] tries, and what [pd.read_csv] does with one
    of them: it returns a table, raises [UnicodeDecodeError], or raises
    another exception. *)
Inductive encoding : Type := utf_8 | latin1.

Inductive read_outcome (T : Type) : Type :=
| Parsed (df : T)
| DecodeError
| OtherError.
Arguments Parsed {T} df.
Arguments DecodeError {T}.
Arguments OtherError {T}.

(** The [for enc in ...: try ... except ... else ...] loop of lines
    69-81: the table and the encoding it was read with, or [None] when
    [analyze] prints a diagnostic and returns. *)
Fixpoint try_encodings (T : Type) (read_csv : encoding -> read_outcome T)
  (encodings : list encoding) : option (encoding * T) :=
  match encodings with
  | [] => None
  | enc :: rest =>
      match read_csv enc with
      | Parsed df => Some (enc, df)
      | DecodeError => try_encodings read_csv rest
      | OtherError => None
      end
  end.

Definition load_table (T : Type) (read_csv : encoding -> read_outcome T)
  : option (encoding * T) :=
  try_encodings read_csv [utf_8; latin1].

(** The characters of [s] before the first [x]. *)
Fixpoint before_first (x : N) (s : list N) : list N :=
  match s with
  | c :: tl => if (c =? x)%N then [] else c :: before_first x tl
  | [] => []
  end.

(** A match of the pattern [\s*\(.*\)] at the start of [s]: the greedy
    [\s*] takes the whole run of whitespace, [\(] needs an opening
    parenthesis (40) after it, and the greedy [.*\)] runs to the last
    closing parenthesis (41) before the next newline (10).  The result is
    what follows the match. *)
Definition match_units (s : list N) : option (list N) :=
  match lstrip s with
  | c :: tl =>
      if (c =? 40)%N then
        let line := before_first 10 tl in
        if existsb (N.eqb 41) line
        then Some (rev (before_first 41 (rev line)) ++ skipn (length line) tl)
        else None
      else None
  | [] => None
  end.

(** [re.sub] of that pattern with the empty string: the matches are
    removed from left to right.  Each match is at least two characters long, so [length s]
    steps are enough. *)
Fixpoint sub_units_fuel (fuel : nat) (s : list N) : list N :=
  match fuel with
  | O => s
  | S fuel' =>
      match s with
      | [] => []
      | c :: tl =>
          match match_units s with
          | Some rest => sub_units_fuel fuel' rest
          | None => c :: sub_units_fuel fuel' tl
          end
      end
  end.

Definition sub_units (s : list N) : list N := sub_units_fuel (length s) s.

(** Line 84, on one header: the matches of the pattern are replaced by
    the empty string, then the result is stripped. *)
Definition normalize_header (h : list N) : list N := strip (sub_units h).

(** Lines 84-85: the normalized headers, with [x_raw] renamed to
    [distance]. *)
Definition normalize_columns (headers : list (list N)) : list (list N) :=
  map (fun h =>
         let h := normalize_header h in
         if str_eqb h (code_points "x_raw"%string)
         then code_points "distance"%string else h)
      headers.

(** Line 88: [all(col in df.columns for col in ["t", "distance"])] *)
Definition has_required_columns (columns : list (list N)) : bool :=
  existsb (str_eqb (code_points "t"%string)) columns &&
  existsb (str_eqb (code_points "distance"%string)) columns.

(** A header [name (unit)]. *)
Definition with_unit (name unit : list N) : list N :=
  name ++ code_points " ("%string ++ unit ++ code_points ")"%string.

(** * Properties *)

(** ** Lists: [map2], [diff], [select] *)

Lemma map2_length (A B C : Type) (f : A -> B -> C) xs ys :
  length (map2 f xs ys) = Nat.min (length xs) (length ys).
Proof.
  revert ys; induction xs as [|x xs IH]; intros [|y ys]; simpl; auto.
Qed.

Lemma map2_nth (A B C : Type) (f : A -> B -> C) xs ys i da db dc :
  (i < length xs)%nat -> (i < length ys)%nat ->
  nth i (map2 f xs ys) dc = f (nth i xs da) (nth i ys db).
Proof.
  revert ys i; induction xs as [|x xs IH]; intros [|y ys] [|i]; simpl;
    intros Hx Hy; try lia; auto.
  apply IH; lia.
Qed.

Lemma diff_length s : length (diff s) = length s.
Proof.
  destruct s as [|x tl]; simpl; auto.
  rewrite map2_length; simpl. f_equal. lia.
Qed.

Lemma diff_nth s i :
  (0 < i)%nat -> (i < length s)%nat ->
  nth i (diff s) NaN = fsub (nth i s NaN) (nth (i - 1) s NaN).
Proof.
  destruct s as [|x tl]; simpl; [lia|].
  destruct i as [|i]; [lia|]. intros _ Hi.
  replace (S i - 1)%nat with i by lia.
  rewrite map2_nth with (da := NaN) (db := NaN); simpl; try lia.
  reflexivity.
Qed.

Lemma diff_head s x : nth_error (diff s) 0 = Some x -> x = NaN.
Proof. destruct s; simpl; congruence. Qed.

Lemma select_map_filter (A : Type) (f : A -> bool) (s : list A) :
  select (map f s) s = filter f s.
Proof.
  induction s as [|x s IH]; simpl; auto.
  destruct (f x); rewrite IH; auto.
Qed.

Lemma kept_from_In j0 mask j :
  In j (kept_from j0 mask) <->
  (j0 <= j)%nat /\ nth (j - j0) mask false = true.
Proof.
  revert j0; induction mask as [|m mask IH]; intros j0; simpl.
  - split; [tauto|]. intros [_ H]. destruct (j - j0)%nat; discriminate.
  - assert (Hrec : In j (kept_from (S j0) mask) <->
                   (j0 < j)%nat /\ nth (j - j0) (m :: mask) false = true).
    { rewrite IH. split; intros [H1 H2]; split; try lia.
      - replace (j - j0)%nat with (S (j - S j0)) by lia. exact H2.
      - replace (j - j0)%nat with (S (j - S j0)) in H2 by lia. exact H2. }
    destruct m; simpl; rewrite ?Hrec.
    + split.
      * intros [<-|[H1 H2]]; [split; [lia|] | split; [lia|exact H2]].
        now rewrite Nat.sub_diag.
      * intros [H1 H2]. destruct (Nat.eq_dec j0 j) as [->|Hne]; [now left|].
        right; split; [lia|exact H2].
    + split; intros [H1 H2]; split; try lia; try exact H2.
      destruct (Nat.eq_dec j0 j) as [->|Hne]; [|lia].
      rewrite Nat.sub_diag in H2; discriminate.
Qed.

Lemma select_kept_from (A : Type) (d : A) mask (s : list A) j0 :
  length mask = length s ->
  select mask s = map (fun j => nth (j - j0) s d) (kept_from j0 mask).
Proof.
  revert s j0; induction mask as [|m mask IH]; intros [|x s] j0 Hlen;
    simpl in *; try discriminate; auto.
  assert (Htl : select mask s =
                map (fun j => nth (j - j0) (x :: s) d) (kept_from (S j0) mask)).
  { rewrite (IH s (S j0)) by lia. apply map_ext_in. intros j Hj.
    apply kept_from_In in Hj. destruct Hj as [Hj _].
    replace (j - j0)%nat with (S (j - S j0)) by lia. reflexivity. }
  destruct m; simpl; rewrite Htl; auto.
  now rewrite Nat.sub_diag.
Qed.

(** ** The Time-Delta step *)

Lemma dt_before_length rows : length (dt_before rows) = length rows.
Proof. unfold dt_before. now rewrite diff_length, length_map. Qed.

Lemma dt_mask_length rows : length (dt_mask rows) = length rows.
Proof. unfold dt_mask. now rewrite length_map, dt_before_length. Qed.

Lemma td_dt_filter rows :
  td_dt (time_delta rows) = filter (fun x => fgt x eps) (dt_before rows).
Proof. unfold time_delta, dt_mask; simpl. apply select_map_filter. Qed.

Lemma nth_map_lt (A B : Type) (f : A -> B) l i da db :
  (i < length l)%nat -> nth i (map f l) db = f (nth i l da).
Proof.
  revert i; induction l as [|x l IH]; intros [|i]; simpl; intros H;
    try lia; auto.
  apply IH; lia.
Qed.

Lemma kept_In rows j :
  In j (kept rows) <-> fgt (nth j (dt_before rows) NaN) eps = true.
Proof.
  unfold kept. rewrite kept_from_In, Nat.sub_0_r. unfold dt_mask.
  destruct (Nat.lt_ge_cases j (length (dt_before rows))) as [Hlt|Hge].
  - rewrite nth_map_lt with (da := NaN) by assumption.
    split; [tauto | intros H; split; [lia | exact H]].
  - rewrite !nth_overflow by now rewrite ?length_map.
    simpl. split; [intros [_ H]; discriminate | discriminate].
Qed.

Lemma kept_bounds rows j :
  In j (kept rows) -> (0 < j)%nat /\ (j < length rows)%nat.
Proof.
  intros H. apply kept_In in H.
  destruct (Nat.lt_ge_cases j (length (dt_before rows))) as [Hlt|Hge].
  - rewrite dt_before_length in Hlt. split; [|assumption].
    destruct j; [|lia]. unfold dt_before in H.
    destruct (map fst rows); simpl in H; discriminate.
  - rewrite nth_overflow in H by assumption. discriminate.
Qed.

Lemma time_delta_kept rows :
  td_t (time_delta rows) = map (fun j => nth j (map fst rows) NaN) (kept rows) /\
  td_distance (time_delta rows) =
    map (fun j => nth j (map snd rows) NaN) (kept rows) /\
  td_dt (time_delta rows) = map (fun j => nth j (dt_before rows) NaN) (kept rows).
Proof.
  unfold time_delta, kept; simpl.
  repeat split;
    (rewrite select_kept_from with (d := NaN) (j0 := 0%nat);
     [ apply map_ext; intros j; now rewrite Nat.sub_0_r
     | rewrite dt_mask_length, ?length_map, ?dt_before_length; reflexivity ]).
Qed.

Lemma fle_not_fgt x y : fle x y = true -> fgt x y = false.
Proof.
  destruct x, y; simpl; intros H; try discriminate; auto;
    now apply negb_true_iff in H.
Qed.

(** ** Infinite cells and the Sanitizer *)

Lemma sanitize_clean x : (isfinite (sanitize x) || isna (sanitize x))%bool = true.
Proof. destruct x; reflexivity. Qed.

Lemma sanitize_id x : no_inf x -> sanitize x = x.
Proof. destruct x; simpl; intros H; try discriminate; reflexivity. Qed.

Lemma sanitize_fixed x : sanitize x = x -> no_inf x.
Proof. destruct x; simpl; intros H; try discriminate; reflexivity. Qed.

Lemma map_sanitize_id s : Forall no_inf s <-> map sanitize s = s.
Proof.
  induction s as [|x s IH]; simpl.
  - split; auto.
  - split.
    + intros H. inversion H; subst. f_equal; [now apply sanitize_id | tauto].
    + intros H. injection H as Hx Hs. constructor;
        [now apply sanitize_fixed | tauto].
Qed.

Lemma Qceqb_eq a b : Qceqb a b = true -> a = b.
Proof.
  unfold Qceqb. intros H. apply Qceq_alt.
  destruct (a ?= b)%Qc; try discriminate; reflexivity.
Qed.

Lemma fsub_no_inf x y : no_inf x -> no_inf y -> no_inf (fsub x y).
Proof. destruct x, y; simpl; unfold no_inf; simpl; auto. Qed.

Lemma fgt_eps_nonzero b : Qcltb (frac 1 10000) b = true -> Qceqb b 0 = false.
Proof.
  intros H. destruct (Qceqb b 0) eqn:E; [|reflexivity].
  apply Qceqb_eq in E. subst b. discriminate.
Qed.

Lemma select_Forall (A : Type) (P : A -> Prop) mask s :
  Forall P s -> Forall P (select mask s).
Proof.
  intros H; revert mask; induction H as [|x s Hx Hs IH]; intros [|m mask];
    simpl; try constructor.
  destruct m; auto.
Qed.

(** ** Finite differences *)

Lemma derivative_nth x dts i :
  (0 < i < length (series_div (diff x) dts))%nat ->
  nth i (series_div (diff x) dts) NaN = finite_difference x dts i.
Proof.
  unfold series_div, finite_difference. rewrite map2_length, diff_length.
  intros H. rewrite map2_nth with (da := NaN) (db := NaN);
    rewrite ?diff_length; try lia.
  now rewrite diff_nth by lia.
Qed.

Lemma derivative_head x dts : missing_at (series_div (diff x) dts) 0.
Proof.
  intros c. destruct x as [|x0 tl]; simpl; [discriminate|].
  destruct dts as [|d0 dts]; simpl; [discriminate|]. congruence.
Qed.

Lemma fsub_NaN_r x : fsub x NaN = NaN.
Proof. destruct x; reflexivity. Qed.

Lemma derivative_second x dts :
  missing_at x 0 -> missing_at (series_div (diff x) dts) 1.
Proof.
  intros H0 c.
  destruct x as [|x0 [|x1 tl]]; simpl; try discriminate.
  - destruct dts; discriminate.
  - destruct dts as [|d0 [|d1 dts]]; simpl; try discriminate.
    rewrite (H0 x0 eq_refl), fsub_NaN_r. simpl. congruence.
Qed.

Lemma rows_no_inf_columns rows :
  rows_no_inf rows -> Forall no_inf (map fst rows) /\ Forall no_inf (map snd rows).
Proof.
  induction 1 as [|r rows [H1 H2] _ [IH1 IH2]]; simpl; split; constructor; auto.
Qed.

(** ** The columns built by [derive] *)

Lemma derive_columns td window pre :
  derive td window = Some pre ->
  t pre = td_t td /\ distance pre = td_distance td /\ dt pre = td_dt td /\
  velocity_raw pre = series_div (diff (td_distance td)) (td_dt td) /\
  acceleration_raw pre = series_div (diff (velocity_raw pre)) (td_dt td) /\
  moving_average (td_distance td) window = Some (distance_f pre) /\
  velocity_f pre = series_div (diff (distance_f pre)) (td_dt td) /\
  acceleration_f pre = series_div (diff (velocity_f pre)) (td_dt td).
Proof.
  unfold derive. destruct (moving_average (td_distance td) window) as [f|];
    [|discriminate].
  intros H. injection H as <-. simpl. repeat split; reflexivity.
Qed.

Lemma analyze_derive rows window df :
  analyze rows window = Some df ->
  exists pre, derive (time_delta rows) window = Some pre /\ df = replace_inf pre.
Proof.
  unfold analyze. destruct (derive (time_delta rows) window) as [pre|];
    simpl; [|discriminate].
  intros H. injection H as <-. now exists pre.
Qed.

(** From [H : analyze rows window = Some df] to the DataFrame [pre] built
    by [derive], with [df] replaced by [replace_inf pre]. *)
Ltac from_analyze H pre Hd :=
  apply analyze_derive in H; destruct H as (pre & Hd & ->).

(** ** C2: the Time-Delta filter *)

(** C2.  After the Time-Delta step every retained row has [dt > 1e-4];
    the retained rows are the input rows at the positions [kept], in
    input order, and no input row whose [dt] is [<= 1e-4] is among them.
    The processed Series holds these rows and no other. *)
Theorem time_delta_retains_only_dt_above_eps (rows : list (cell * cell)) :
  Forall (fun x => fgt x eps = true) (td_dt (time_delta rows)) /\
  (td_t (time_delta rows) = map (fun j => nth j (map fst rows) NaN) (kept rows) /\
   td_distance (time_delta rows) =
     map (fun j => nth j (map snd rows) NaN) (kept rows) /\
   td_dt (time_delta rows) =
     map (fun j => nth j (dt_before rows) NaN) (kept rows)) /\
  (forall j, fle (nth j (dt_before rows) NaN) eps = true -> ~ In j (kept rows)) /\
  (forall window df, analyze rows window = Some df ->
     t df = map sanitize (td_t (time_delta rows)) /\
     distance df = map sanitize (td_distance (time_delta rows)) /\
     dt df = map sanitize (td_dt (time_delta rows))).
Proof.
  split; [|split; [|split]].
  - rewrite td_dt_filter. apply Forall_forall. intros x Hx.
    apply filter_In in Hx. tauto.
  - apply time_delta_kept.
  - intros j Hle Hin. apply kept_In in Hin.
    apply fle_not_fgt in Hle. congruence.
  - intros window df H. from_analyze H pre Hd.
    destruct (derive_columns _ _ Hd) as (Ht & Hdist & Hdt & _).
    unfold replace_inf; simpl. now rewrite Ht, Hdist, Hdt.
Qed.

(** The row with the repeated timestamp of [t = [0, 1, 1, 2]] is dropped. *)
Lemma time_delta_retains_only_dt_above_eps_witness :
  fle (nth 2 (dt_before duplicate_rows) NaN) eps = true /\
  ~ In 2%nat (kept duplicate_rows) /\
  exists df, analyze duplicate_rows 1 = Some df /\ t df = [z 1; z 2].
Proof.
  pose proof (time_delta_retains_only_dt_above_eps duplicate_rows)
    as (_ & _ & Hdrop & Hfinal).
  split; [reflexivity|]. split; [apply Hdrop; reflexivity|].
  eexists. split; [reflexivity|].
  destruct (Hfinal 1%Z _ eq_refl) as (Ht & _). rewrite Ht. reflexivity.
Defined.

(** ** The DataFrame before the Sanitizer (C1, C9) *)

Section BeforeSanitizer.

Variable rows : list (cell * cell).
Variable window : Z.
Variable pre : frame.
Hypothesis Hd : derive (time_delta rows) window = Some pre.

Lemma derive_lengths :
  length (distance pre) = length (kept rows) /\
  length (dt pre) = length (kept rows) /\
  length (velocity_raw pre) = length (kept rows) /\
  length (acceleration_raw pre) = length (kept rows).
Proof.
  destruct (derive_columns _ _ Hd) as (_ & Hdist & Hdt & Hv & Ha & _).
  destruct (time_delta_kept rows) as (_ & Kd & Kdt).
  assert (L1 : length (td_distance (time_delta rows)) = length (kept rows))
    by now rewrite Kd, length_map.
  assert (L2 : length (td_dt (time_delta rows)) = length (kept rows))
    by now rewrite Kdt, length_map.
  assert (L3 : length (velocity_raw pre) = length (kept rows)).
  { rewrite Hv. unfold series_div. rewrite map2_length, diff_length. lia. }
  repeat split; try congruence.
  rewrite Ha. unfold series_div. rewrite map2_length, diff_length. lia.
Qed.

Lemma derive_raw_law : raw_derivative_law pre.
Proof.
  destruct (derive_columns _ _ Hd) as (_ & Hdist & Hdt & Hv & Ha & _).
  unfold raw_derivative_law. rewrite Hdist, Hdt, Ha, Hv.
  repeat split.
  - apply derivative_nth.
  - apply derivative_head.
  - intros i Hi. apply derivative_nth. lia.
  - apply derivative_head.
  - apply derivative_second, derivative_head.
Qed.

(** The [t] and [distance] columns are cells of the input table. *)
Lemma derive_inputs_no_inf :
  rows_no_inf rows ->
  Forall no_inf (t pre) /\ Forall no_inf (distance pre).
Proof.
  intros Hfin. apply rows_no_inf_columns in Hfin. destruct Hfin as [Hnt Hnd].
  destruct (derive_columns _ _ Hd) as (Ht & Hdist & _).
  rewrite Ht, Hdist. unfold time_delta; simpl.
  split; now apply select_Forall.
Qed.

(** C1, as the code has it.  The equalities of the raw estimator hold of
    the Series as it stands before the Sanitizer step, every column having
    one cell per retained row; the processed Series is that Series with
    its infinite cells replaced by the missing marker, and the equalities
    hold of the processed Series when the Series before the Sanitizer
    holds no infinite cell in [distance], [dt], [velocity_raw] and
    [acceleration_raw]. *)
Theorem raw_derivatives_before_sanitizer :
  raw_derivative_law pre /\
  analyze rows window = Some (replace_inf pre) /\
  (raw_estimator_no_inf pre -> raw_derivative_law (replace_inf pre)) /\
  (length (velocity_raw pre) = length (distance pre) /\
   length (acceleration_raw pre) = length (distance pre)).
Proof.
  split; [exact derive_raw_law|]. split; [|split].
  - unfold analyze. now rewrite Hd.
  - intros Hfin. unfold raw_estimator_no_inf in Hfin.
    inversion Hfin as [|? ? Hnd H1]; subst.
    inversion H1 as [|? ? Hndt H2]; subst.
    inversion H2 as [|? ? Hnv H3]; subst.
    inversion H3 as [|? ? Hna _]; subst.
    unfold raw_derivative_law, replace_inf; simpl.
    rewrite (proj1 (map_sanitize_id _) Hnd), (proj1 (map_sanitize_id _) Hndt),
      (proj1 (map_sanitize_id _) Hnv), (proj1 (map_sanitize_id _) Hna).
    exact derive_raw_law.
  - destruct derive_lengths as (L1 & _ & L3 & L4). lia.
Qed.

(** C9, as the code has it.  The Sanitizer rewrites every column, [t] and
    [distance] included; each of these two columns is unchanged exactly
    when it holds no infinite cell, which is the case when no cell of the
    input table is infinite. *)
Theorem sanitizer_frame :
  (t (replace_inf pre) = t pre <-> Forall no_inf (t pre)) /\
  (distance (replace_inf pre) = distance pre <-> Forall no_inf (distance pre)) /\
  (rows_no_inf rows ->
   t (replace_inf pre) = t pre /\ distance (replace_inf pre) = distance pre).
Proof.
  unfold replace_inf; simpl.
  split; [|split].
  - symmetry. apply map_sanitize_id.
  - symmetry. apply map_sanitize_id.
  - intros Hfin. destruct (derive_inputs_no_inf Hfin) as (Hnt & Hnd).
    split; now apply map_sanitize_id.
Qed.

End BeforeSanitizer.

(** ** C1: raw finite differences on concrete tables *)

(** C1 does not hold as stated.  With the timestamps [0, 1, inf] the processed
    Series has [velocity_raw[1] = 0] while [dt[1]] is missing, so
    [(distance[1] - distance[0]) / dt[1]] is missing. *)
Lemma raw_derivative_law_fails_after_sanitizer :
  exists df, analyze inf_time_rows 1 = Some df /\ ~ raw_derivative_law df.
Proof.
  eexists. split; [reflexivity|].
  intros [Hv _]. specialize (Hv 1%nat).
  assert (Hi : (0 < 1 < 2)%nat) by lia.
  specialize (Hv Hi). vm_compute in Hv. discriminate.
Qed.

Lemma raw_derivatives_before_sanitizer_witness :
  exists pre, derive (time_delta static_rows) 3 = Some pre /\
              raw_estimator_no_inf pre /\
              raw_derivative_law (replace_inf pre).
Proof.
  eexists. split; [reflexivity|].
  match goal with
  | |- raw_estimator_no_inf ?p /\ _ =>
      assert (Hfin : raw_estimator_no_inf p)
        by (repeat constructor)
  end.
  split; [exact Hfin|].
  exact (proj1 (proj2 (proj2 (raw_derivatives_before_sanitizer
                                static_rows 3 eq_refl))) Hfin).
Defined.

(** ** C3: the dt column *)

(** C3 does not hold as stated.  For the timestamps [0, 2, 1, 3] the row with
    [t = 1] is dropped; the retained rows have [t = [2, 3]] and keep
    [dt = [2, 2]], but [3 - 2 = 1]. *)
Lemma consecutive_dt_law_fails :
  exists df, analyze unordered_rows 1 = Some df /\ ~ consecutive_dt_law df.
Proof.
  eexists. split; [reflexivity|].
  intros H. specialize (H 1%nat).
  assert (Hi : (0 < 1 < 2)%nat) by lia.
  specialize (H Hi). vm_compute in H. discriminate.
Qed.

Lemma kept_from_sorted j0 mask : StronglySorted lt (kept_from j0 mask).
Proof.
  revert j0; induction mask as [|m mask IH]; intros j0; simpl;
    [constructor|].
  destruct m; [|apply IH].
  constructor; [apply IH|].
  apply Forall_forall. intros j Hj. apply kept_from_In in Hj. lia.
Qed.

(** C3, as the code has it.  Each retained row keeps the [dt] computed before the
    filter: the difference between its own timestamp and the timestamp of
    the row just before it in the input table, retained or not (an
    infinite value becoming the missing marker in the Sanitizer).  The
    retained rows are input rows 1 and later, in input order. *)
Theorem dt_is_difference_to_input_predecessor rows window df :
  analyze rows window = Some df ->
  t df = map (fun j => sanitize (nth j (map fst rows) NaN)) (kept rows) /\
  dt df = map (fun j => sanitize (fsub (nth j (map fst rows) NaN)
                                       (nth (j - 1) (map fst rows) NaN)))
              (kept rows) /\
  Forall (fun j => (0 < j < length rows)%nat) (kept rows) /\
  StronglySorted lt (kept rows).
Proof.
  intros H. from_analyze H pre Hd.
  destruct (derive_columns _ _ Hd) as (Ht & _ & Hdt & _).
  destruct (time_delta_kept rows) as (Kt & _ & Kdt).
  unfold replace_inf; simpl. rewrite Ht, Hdt, Kt, Kdt, !map_map.
  repeat split.
  - apply map_ext_in. intros j Hj. f_equal.
    apply kept_bounds in Hj. unfold dt_before.
    apply diff_nth; rewrite ?length_map; lia.
  - apply Forall_forall. intros j Hj. now apply kept_bounds.
  - apply kept_from_sorted.
Qed.

Lemma dt_is_difference_to_input_predecessor_witness :
  exists df, analyze unordered_rows 1 = Some df /\
             t df = [z 2; z 3] /\ dt df = [z 2; z 2] /\
             kept unordered_rows = [1; 3]%nat.
Proof.
  eexists. split; [reflexivity|].
  destruct (dt_is_difference_to_input_predecessor unordered_rows 1 eq_refl)
    as (Ht & Hdt & _).
  split; [|split]; [rewrite Ht | rewrite Hdt | ]; reflexivity.
Defined.

(** ** Deciding equalities between concrete tables *)

Lemma cell_eqb_eq x y : cell_eqb x y = true -> x = y.
Proof.
  destruct x, y; simpl; intros H; try discriminate; auto.
  f_equal. now apply Qceqb_eq.
Qed.

Lemma cells_eqb_eq xs ys : cells_eqb xs ys = true -> xs = ys.
Proof.
  revert ys; induction xs as [|x xs IH]; intros [|y ys]; simpl; intros H;
    try discriminate; auto.
  apply andb_true_iff in H. destruct H as [H1 H2].
  f_equal; [now apply cell_eqb_eq | now apply IH].
Qed.

Lemma frame_eqb_eq a b : frame_eqb a b = true -> a = b.
Proof.
  unfold frame_eqb. intros H.
  repeat (apply andb_true_iff in H; destruct H as [H ?]).
  destruct a, b; simpl in *.
  f_equal; now apply cells_eqb_eq.
Qed.

(** ** C4: the static-object example *)

Lemma analyze_returns rows window df :
  match analyze rows window with
  | Some out => frame_eqb out df
  | None => false
  end = true ->
  analyze rows window = Some df.
Proof.
  destruct (analyze rows window) as [out|]; [|discriminate].
  intros H. f_equal. now apply frame_eqb_eq.
Qed.

(** C4, as the code has it.  For [t = [0, 0.05, 0.10, 0.15]] (the float64
    numbers these decimals are read as), [distance = 10] and [W = 3] the
    first input row is dropped by the Time-Delta filter (its [dt] is
    missing, and a missing value is not [> 1e-4]); the processed Series
    has three rows, [t = [0.05, 0.10, 0.15]],
    [dt = [0.05, 0.05, 0.04999999999999999]] (the float64 differences
    [0.05 - 0], [0.10 - 0.05] and [0.15 - 0.10], each of them exact),
    [velocity_raw = [_, 0, 0]], [acceleration_raw = [_, _, 0]],
    [distance_f = [10, 10, 10]], [velocity_f = [_, 0, 0]] and
    [acceleration_f = [_, _, 0]]. *)
Theorem analyze_static_example :
  analyze static_rows_f64 3 = Some static_frame_f64.
Proof.
  apply analyze_returns. vm_compute. reflexivity.
Qed.

(** C4 does not hold as stated: the processed Series of the example has no
    four-row [dt] column starting with a missing cell. *)
Lemma static_example_differs :
  exists df, analyze static_rows 3 = Some df /\ ~ static_example_as_specified df.
Proof.
  eexists. split; [reflexivity|].
  intros [H _]. vm_compute in H. discriminate H.
Qed.

(** ** C8: no infinity after the Sanitizer *)

Lemma map_sanitize_clean s : Forall finite_or_missing (map sanitize s).
Proof.
  apply Forall_forall. intros x Hx. apply in_map_iff in Hx.
  destruct Hx as (y & <- & _). destruct y; simpl; unfold finite_or_missing;
    simpl; auto.
Qed.

(** C8.  In the DataFrame returned by [analyze], every cell of every
    derived column is finite or the missing marker. *)
Theorem no_infinity_after_sanitizer rows window df :
  analyze rows window = Some df ->
  Forall (Forall finite_or_missing) (derived_columns df).
Proof.
  intros H. from_analyze H pre Hd.
  unfold derived_columns, replace_inf; simpl.
  repeat constructor; apply map_sanitize_clean.
Qed.

Lemma no_infinity_after_sanitizer_witness :
  (exists pre, derive (time_delta inf_jump_rows) 1 = Some pre /\
               nth 1 (velocity_raw pre) NaN = PInf) /\
  exists df, analyze inf_jump_rows 1 = Some df /\
             Forall (Forall finite_or_missing) (derived_columns df).
Proof.
  split.
  - eexists. split; reflexivity.
  - eexists. split; [reflexivity|].
    exact (no_infinity_after_sanitizer inf_jump_rows 1 eq_refl).
Defined.

(** ** C9: the Sanitizer on concrete tables *)

(** C9 does not hold as stated.  An infinite distance reading of a retained row is
    replaced by the missing marker: the [distance] column changes. *)
Lemma sanitizer_rewrites_distance :
  exists pre, derive (time_delta inf_distance_rows) 1 = Some pre /\
              ~ (t (replace_inf pre) = t pre /\
                 distance (replace_inf pre) = distance pre).
Proof.
  eexists. split; [reflexivity|].
  intros [_ H]. vm_compute in H. discriminate.
Qed.

Lemma sanitizer_frame_witness :
  exists pre, derive (time_delta static_rows) 3 = Some pre /\
              rows_no_inf static_rows /\
              t (replace_inf pre) = t pre /\
              distance (replace_inf pre) = distance pre.
Proof.
  eexists. split; [reflexivity|].
  assert (Hfin : rows_no_inf static_rows) by (repeat constructor).
  split; [exact Hfin|].
  exact (proj2 (proj2 (sanitizer_frame static_rows 3 eq_refl)) Hfin).
Defined.

(** ** Rolling windows *)

Lemma finite_no_inf x : finite x -> no_inf x.
Proof. destruct x; unfold finite, no_inf; simpl; auto; discriminate. Qed.

Lemma prep_values_finite s : Forall finite s -> prep_values s = s.
Proof.
  intros H. apply map_sanitize_id.
  eapply Forall_impl; [|exact H]. apply finite_no_inf.
Qed.

Lemma slice_nth (A : Type) lo hi (s : list A) d :
  (lo <= hi <= length s)%nat ->
  slice lo hi s = map (fun j => nth j s d) (seq lo (hi - lo)).
Proof.
  intros H. unfold slice.
  apply nth_ext with (d := d) (d' := d).
  - rewrite length_firstn, length_skipn, length_map, length_seq. lia.
  - intros i Hi. rewrite length_firstn, length_skipn in Hi.
    rewrite nth_firstn. destruct (Nat.ltb_spec i (hi - lo)); [|lia].
    rewrite nth_skipn.
    rewrite nth_map_lt with (da := 0%nat) by (rewrite length_seq; lia).
    rewrite seq_nth by lia. reflexivity.
Qed.

Lemma slice_Forall (A : Type) (P : A -> Prop) lo hi s :
  Forall P s -> Forall P (slice lo hi s).
Proof.
  intros H. unfold slice.
  rewrite <- (firstn_skipn lo s) in H. apply Forall_app in H.
  destruct H as [_ H].
  rewrite <- (firstn_skipn (hi - lo) (skipn lo s)) in H.
  apply Forall_app in H. tauto.
Qed.

Lemma slice_length (A : Type) lo hi (s : list A) :
  (lo <= hi <= length s)%nat -> length (slice lo hi s) = (hi - lo)%nat.
Proof. intros H. unfold slice. rewrite length_firstn, length_skipn. lia. Qed.

Lemma observed_finite w : Forall finite w -> observed w = map value w.
Proof.
  induction 1 as [|x w Hx _ IH]; simpl; auto.
  destruct x; try discriminate Hx. simpl. now rewrite IH.
Qed.

Lemma calc_mean_finite w :
  Forall finite w -> (0 < length w)%nat ->
  calc_mean 1 w = Fin (Qcsum (map value w) / Qc_of_nat (length w)).
Proof.
  intros Hfin Hlen. unfold calc_mean.
  rewrite (observed_finite Hfin), length_map.
  destruct (Z.leb_spec 1 (Z.of_nat (length w))); [|lia].
  destruct (Nat.ltb_spec 0 (length w)); [|lia].
  reflexivity.
Qed.

Lemma centered_window_bounds n window i :
  (0 < window)%Z -> (i < n)%nat ->
  (window_start n window true i <= i)%nat /\
  (i < window_end n window true i)%nat /\
  (window_end n window true i <= n)%nat.
Proof.
  intros Hw Hi. unfold window_start, window_end, clip.
  assert (H0 : (0 <= (window - 1) / 2)%Z) by (apply Z.div_pos; lia).
  assert (H1 : ((window - 1) / 2 <= window - 1)%Z)
    by (apply Z.div_le_upper_bound; lia).
  lia.
Qed.

Lemma odd_window_start n k i :
  (i < n)%nat ->
  window_start n (2 * Z.of_nat k + 1) true i = Nat.max 0 (i - k).
Proof.
  intros Hi. unfold window_start, clip.
  replace ((2 * Z.of_nat k + 1 - 1) / 2)%Z with (Z.of_nat k)
    by (apply Z.div_unique with (r := 0%Z); lia).
  lia.
Qed.

Lemma odd_window_end n k i :
  (i < n)%nat ->
  window_end n (2 * Z.of_nat k + 1) true i = S (Nat.min (n - 1) (i + k)).
Proof.
  intros Hi. unfold window_end, clip.
  replace ((2 * Z.of_nat k + 1 - 1) / 2)%Z with (Z.of_nat k)
    by (apply Z.div_unique with (r := 0%Z); lia).
  lia.
Qed.

Lemma moving_average_unfold signal window :
  (0 < window)%Z ->
  moving_average signal window =
  Some (map (fun i =>
               calc_mean 1
                 (slice (window_start (length signal) window true i)
                        (window_end (length signal) window true i)
                        (prep_values signal)))
            (seq 0 (length signal))).
Proof.
  intros Hw. unfold moving_average, rolling_mean.
  destruct (Z.ltb_spec window 0); [lia|].
  destruct (Z.ltb_spec window 1); [lia|].
  simpl.
  assert (L : length (prep_values signal) = length signal)
    by apply length_map.
  now rewrite L.
Qed.


Lemma ramp_finite : Forall finite ramp.
Proof. repeat constructor. Qed.


(** A missing reading can leave a missing filtered value: the hypothesis
    on the cells of the series is needed. *)
Remark moving_average_missing_input : moving_average [NaN] 3 = Some [NaN].
Proof. reflexivity. Qed.

(** ** C6: window 1 *)

Lemma calc_mean_single x : calc_mean 1 [sanitize x] = sanitize x.
Proof.
  destruct x as [a| | |]; try reflexivity.
  unfold calc_mean; simpl. change (sanitize (Fin a)) with (Fin a). f_equal.
  change (Qc_of_nat 1) with 1%Qc. field. discriminate.
Qed.

Lemma moving_average_window_1 signal :
  moving_average signal 1 = Some (map sanitize signal).
Proof.
  rewrite moving_average_unfold by lia. f_equal.
  apply nth_ext with (d := NaN) (d' := NaN).
  - now rewrite !length_map, length_seq.
  - intros i Hi. rewrite length_map, length_seq in Hi.
    rewrite nth_map_lt with (da := 0%nat) by (rewrite length_seq; lia).
    rewrite seq_nth by lia. rewrite Nat.add_0_l.
    change 1%Z with (2 * Z.of_nat 0 + 1)%Z.
    rewrite odd_window_start, odd_window_end by assumption.
    rewrite slice_nth with (d := NaN)
      by (unfold prep_values; rewrite length_map; lia).
    replace (S (Nat.min (length signal - 1) (i + 0)) - Nat.max 0 (i - 0))%nat
      with 1%nat by lia.
    replace (Nat.max 0 (i - 0)) with i by lia.
    simpl. unfold prep_values.
    rewrite nth_map_lt with (da := NaN) by assumption.
    apply calc_mean_single.
Qed.

(** C6 does not hold as stated.  An infinite reading is not returned as it is:
    the rolling mean of pandas treats it as missing. *)
Lemma moving_average_window_1_not_identity :
  exists signal, moving_average signal 1 <> Some signal.
Proof. exists [PInf]. vm_compute. discriminate. Qed.

(** C6, as the code has it.  With [W = 1], [moving_average] returns its input with
    the infinite cells replaced by the missing marker: it is the identity
    on every series without an infinite cell, and in the DataFrame
    returned by [analyze] the column [distance_f] equals the column
    [distance] at every index. *)
Theorem moving_average_window_1_sanitizes :
  (forall signal, moving_average signal 1 = Some (map sanitize signal)) /\
  (forall signal, Forall no_inf signal -> moving_average signal 1 = Some signal) /\
  (forall rows, exists df,
      analyze rows 1 = Some df /\ distance_f df = distance df).
Proof.
  split; [exact moving_average_window_1|]. split.
  - intros signal H. rewrite moving_average_window_1.
    f_equal. now apply map_sanitize_id.
  - intros rows. unfold analyze, derive.
    rewrite moving_average_window_1. simpl. eexists. split; [reflexivity|].
    simpl. rewrite map_map. apply map_ext. intros x. now destruct x.
Qed.

Lemma moving_average_window_1_sanitizes_witness :
  Forall no_inf ramp /\ moving_average ramp 1 = Some ramp.
Proof.
  assert (H : Forall no_inf ramp) by (repeat constructor).
  split; [exact H|].
  exact (proj1 (proj2 moving_average_window_1_sanitizes) ramp H).
Defined.

(** ** C10: the two smoothing paths *)

Lemma bfill_notna s : Forall (fun x => isna x = false) s -> bfill s = s.
Proof.
  induction 1 as [|x s Hx _ IH]; simpl; auto.
  now rewrite Hx, IH.
Qed.

Lemma x_filtered_window_1 signal :
  x_filtered signal 1 = Some (bfill (map sanitize signal)).
Proof.
  unfold x_filtered.
  change (rolling_mean signal 1 false None) with (moving_average signal 1).
  now rewrite moving_average_window_1.
Qed.

(** C10.  The centered, edge-shrinking average of [analyzer.py] and the
    trailing, back-filled rolling mean of [distance_log.py] differ: on
    [[0, 3, 6]] with [W = 3] the first gives [1.5] at index 0 and the
    second gives [3].  With [W = 1] they agree on every series of finite
    values. *)
Theorem smoothing_paths_differ :
  (exists signal window i a b,
      moving_average signal window = Some a /\
      x_filtered signal window = Some b /\
      nth_error a i <> nth_error b i) /\
  (forall signal, Forall finite signal ->
      moving_average signal 1 = x_filtered signal 1).
Proof.
  split.
  - exists [z 0; z 3; z 6], 3%Z, 0%nat. eexists. eexists.
    split; [reflexivity|]. split; [reflexivity|].
    vm_compute. intros H. discriminate H.
  - intros signal H.
    rewrite moving_average_window_1, x_filtered_window_1. f_equal.
    rewrite (proj1 (map_sanitize_id _)).
    + symmetry. apply bfill_notna.
      eapply Forall_impl; [|exact H]. intros x Hx. now destruct x.
    + eapply Forall_impl; [|exact H]. apply finite_no_inf.
Qed.

Lemma smoothing_paths_differ_witness :
  Forall finite ramp /\ moving_average ramp 1 = x_filtered ramp 1.
Proof.
  split; [exact ramp_finite|].
  exact (proj2 smoothing_paths_differ ramp ramp_finite).
Defined.

(** ** C7: the sample rate *)

Lemma fgt_zero_notna m : fgt m (Fin 0) = true -> notna m = true.
Proof. destruct m; simpl; auto; discriminate. Qed.

Lemma Qcltb_zero_nonzero m : Qcltb 0 m = true -> Qceqb m 0 = false.
Proof.
  intros H. destruct (Qceqb m 0) eqn:E; [|reflexivity].
  apply Qceqb_eq in E. subst m. discriminate.
Qed.

Lemma scalar_div_positive a m :
  fgt m (Fin 0) = true -> scalar_div a m = Some (fdiv a m).
Proof.
  destruct m as [b| | |]; simpl; auto.
  intros H. now rewrite (Qcltb_zero_nonzero _ H).
Qed.

Lemma safe_sample_rate_value df :
  safe_sample_rate df = Some (sample_rate_as_specified df).
Proof.
  unfold safe_sample_rate, sample_rate_as_specified.
  destruct (fgt (series_mean (dt df)) (Fin 0)) eqn:E.
  - rewrite (fgt_zero_notna _ E), (scalar_div_positive _ _ E). reflexivity.
  - now rewrite andb_false_r.
Qed.

Lemma Qc_of_nat_nonzero n : (0 < n)%nat -> Qceqb (Qc_of_nat n) 0 = false.
Proof.
  intros Hn. destruct (Qceqb (Qc_of_nat n) 0) eqn:E; [|reflexivity].
  apply Qceqb_eq in E. unfold Qc_of_nat, qc_of_Z in E.
  apply Q2Qc_eq_iff in E. unfold Qeq in E; simpl in E. lia.
Qed.

Lemma sum_finite s :
  Forall finite s -> fold_right fadd (Fin 0) s = Fin (Qcsum (map value s)).
Proof.
  induction 1 as [|x s Hx _ IH]; simpl; auto.
  rewrite IH. destruct x; try discriminate Hx. reflexivity.
Qed.

Lemma filter_notna_finite s : Forall finite s -> filter notna s = s.
Proof.
  induction 1 as [|x s Hx _ IH]; simpl; auto.
  destruct x; try discriminate Hx. simpl. now rewrite IH.
Qed.

Lemma series_mean_finite s :
  Forall finite s -> s <> [] ->
  series_mean s = Fin (Qcsum (map value s) / Qc_of_nat (length s)).
Proof.
  intros Hfin Hne. unfold series_mean. rewrite (filter_notna_finite Hfin).
  destruct s as [|x s]; [congruence|].
  rewrite (sum_finite Hfin). unfold fdiv.
  rewrite Qc_of_nat_nonzero by (simpl; lia). reflexivity.
Qed.

Lemma short_table_keeps_nothing rows : (length rows < 2)%nat -> kept rows = [].
Proof.
  intros H. destruct (kept rows) as [|j l] eqn:E; [reflexivity|].
  assert (Hj : In j (kept rows)) by (rewrite E; now left).
  apply kept_bounds in Hj. lia.
Qed.

(** C7 does not hold as stated.  The table of two rows [t = [0, 0.5]] leaves a
    processed Series of one sample with [dt = 0.5]; its rate is 2.0, not
    the undefined marker. *)
Lemma single_sample_series_has_a_rate :
  exists df, analyze two_rows 1 = Some df /\
             (length (t df) < 2)%nat /\
             safe_sample_rate df = Some (z 2) /\
             safe_sample_rate df <> Some NaN.
Proof.
  eexists. split; [reflexivity|]. split; [simpl; lia|].
  match goal with
  | |- ?r = _ /\ _ => assert (H : r = Some (z 2))
  end.
  { rewrite safe_sample_rate_value. f_equal. apply cell_eqb_eq.
    vm_compute. reflexivity. }
  split; [exact H | rewrite H; discriminate].
Qed.

(** * Further properties of [analyzer.py] *)

(** ** When [analyze] fails, and the shape of what it returns *)

Lemma rolling_mean_length s window center minp out :
  rolling_mean s window center minp = Some out -> length out = length s.
Proof.
  unfold rolling_mean.
  destruct ((window <? 0)%Z || _ || _)%bool; [discriminate|].
  intros H. injection H as <-.
  unfold prep_values. now rewrite length_map, length_seq, length_map.
Qed.

Lemma moving_average_fails signal window :
  moving_average signal window = None <-> (window < 1)%Z.
Proof.
  unfold moving_average, rolling_mean.
  destruct (Z.ltb_spec window 0); destruct (Z.ltb_spec window 1); simpl;
    split; intros H'; try lia; try discriminate; reflexivity.
Qed.

(** X1.  On a table with float columns [t] and [distance] and distinct
    column labels, and for a window below [2^62], lines 93-106 of
    [analyze] raise (the [ValueError] of [rolling]) exactly when the
    window is smaller than 1; for every other window they build the
    DataFrame.  (Beyond the 64-bit range the window bounds of pandas
    overflow, which the unbounded integer of the model does not show.) *)
Theorem analyze_fails_iff_window_below_1 (rows : list (cell * cell)) (window : Z) :
  (window < 2 ^ 62)%Z ->
  (analyze rows window = None <-> (window < 1)%Z).
Proof.
  intros _.
  rewrite <- (moving_average_fails (td_distance (time_delta rows)) window).
  unfold analyze, derive.
  destruct (moving_average (td_distance (time_delta rows)) window); simpl;
    split; intros H; try discriminate; reflexivity.
Qed.

Lemma analyze_fails_iff_window_below_1_witness :
  analyze duplicate_rows 0 = None /\
  exists df, analyze duplicate_rows 1 = Some df.
Proof.
  split.
  - apply (@analyze_fails_iff_window_below_1 duplicate_rows 0); reflexivity.
  - destruct (analyze duplicate_rows 1) as [df|] eqn:E; [now exists df|].
    apply (@analyze_fails_iff_window_below_1 duplicate_rows 1) in E;
      [discriminate E | reflexivity].
Defined.

Lemma kept_from_length j mask : (length (kept_from j mask) <= length mask)%nat.
Proof.
  revert j; induction mask as [|m mask IH]; intros j; simpl; [lia|].
  destruct m; simpl; specialize (IH (S j)); lia.
Qed.

Lemma kept_length rows : (length (kept rows) <= length rows - 1)%nat.
Proof.
  unfold kept, dt_mask, dt_before.
  destruct rows as [|r rows]; simpl; [lia|].
  rewrite Nat.sub_0_r.
  etransitivity; [apply kept_from_length|].
  rewrite length_map, map2_length, !length_map. simpl. lia.
Qed.

(** X2.  Every column of the DataFrame returned by [analyze] has one cell
    per retained input row, and the first input row is never retained:
    a table of [n] rows gives at most [n - 1] processed rows. *)
Theorem processed_columns_length rows window df :
  analyze rows window = Some df ->
  Forall (fun col => length col = length (kept rows)) (all_columns df) /\
  (length (kept rows) <= length rows - 1)%nat.
Proof.
  intros H. split; [|apply kept_length].
  from_analyze H pre Hd.
  destruct (derive_columns _ _ Hd)
    as (Ht & Hdist & Hdt & Hv & Ha & Hma & Hvf & Haf).
  destruct (time_delta_kept rows) as (Kt & Kd & Kdt).
  assert (Lt : length (td_t (time_delta rows)) = length (kept rows))
    by now rewrite Kt, length_map.
  assert (Ld : length (td_distance (time_delta rows)) = length (kept rows))
    by now rewrite Kd, length_map.
  assert (Ldt : length (td_dt (time_delta rows)) = length (kept rows))
    by now rewrite Kdt, length_map.
  assert (Lf : length (distance_f pre) = length (kept rows))
    by now rewrite (rolling_mean_length _ _ _ _ Hma).
  assert (Lv : length (velocity_raw pre) = length (kept rows)).
  { rewrite Hv. unfold series_div. rewrite map2_length, diff_length. lia. }
  assert (Lvf : length (velocity_f pre) = length (kept rows)).
  { rewrite Hvf. unfold series_div. rewrite map2_length, diff_length. lia. }
  unfold all_columns, replace_inf; simpl.
  repeat constructor; rewrite length_map; try congruence.
  - rewrite Ha. unfold series_div. rewrite map2_length, diff_length. lia.
  - rewrite Haf. unfold series_div. rewrite map2_length, diff_length. lia.
Qed.

Lemma processed_columns_length_witness :
  exists df, analyze duplicate_rows 3 = Some df /\
             Forall (fun col => length col = 2%nat) (all_columns df).
Proof.
  eexists. split; [reflexivity|].
  exact (proj1 (processed_columns_length duplicate_rows 3 eq_refl)).
Defined.

(** ** The filtered derivatives *)

Section FilteredDerivatives.

Variable rows : list (cell * cell).
Variable window : Z.
Variable pre : frame.
Hypothesis Hd : derive (time_delta rows) window = Some pre.

(** X3.  The filtered estimator differences [distance_f] by the same rule
    and the same [dt] column as the raw one: before the Sanitizer,
    [velocity_f[i] = (distance_f[i] - distance_f[i-1]) / dt[i]] for
    [i > 0], [acceleration_f[i] = (velocity_f[i] - velocity_f[i-1]) / dt[i]]
    for [i > 1], with the same leading missing cells; the equalities hold
    of the processed Series when the Series before the Sanitizer holds no
    infinite cell in [distance_f], [dt], [velocity_f] and
    [acceleration_f]. *)
Theorem filtered_derivatives_before_sanitizer :
  filtered_derivative_law pre /\
  (filtered_estimator_no_inf pre -> filtered_derivative_law (replace_inf pre)).
Proof.
  destruct (derive_columns _ _ Hd)
    as (_ & _ & Hdt & _ & _ & Hma & Hvf & Haf).
  assert (Hlaw : filtered_derivative_law pre).
  { unfold filtered_derivative_law. rewrite Hdt, Haf, Hvf.
    repeat split.
    - apply derivative_nth.
    - apply derivative_head.
    - intros i Hi. apply derivative_nth. lia.
    - apply derivative_head.
    - apply derivative_second, derivative_head. }
  split; [exact Hlaw|]. intros Hfin. unfold filtered_estimator_no_inf in Hfin.
  inversion Hfin as [|? ? Hnf H1]; subst.
  inversion H1 as [|? ? Hndt H2]; subst.
  inversion H2 as [|? ? Hnv H3]; subst.
  inversion H3 as [|? ? Hna _]; subst.
  unfold filtered_derivative_law, replace_inf; simpl.
  rewrite (proj1 (map_sanitize_id _) Hnf), (proj1 (map_sanitize_id _) Hndt),
    (proj1 (map_sanitize_id _) Hnv), (proj1 (map_sanitize_id _) Hna).
  exact Hlaw.
Qed.

End FilteredDerivatives.

Lemma filtered_derivatives_before_sanitizer_witness :
  exists pre, derive (time_delta static_rows) 3 = Some pre /\
              filtered_estimator_no_inf pre /\
              filtered_derivative_law (replace_inf pre).
Proof.
  eexists. split; [reflexivity|].
  match goal with
  | |- filtered_estimator_no_inf ?p /\ _ =>
      assert (Hfin : filtered_estimator_no_inf p)
        by (repeat constructor)
  end.
  split; [exact Hfin|].
  exact (proj2 (filtered_derivatives_before_sanitizer static_rows 3 eq_refl)
           Hfin).
Defined.

(** ** Regular sampling *)

Lemma select_all_true (A : Type) mask (s : list A) :
  Forall (fun m => m = true) mask -> length mask = length s ->
  select mask s = s.
Proof.
  intros H; revert s; induction H as [|m mask -> _ IH]; intros [|x s];
    simpl; intros L; try discriminate; auto.
  f_equal. apply IH. lia.
Qed.

Lemma kept_from_all_true j mask :
  Forall (fun m => m = true) mask -> kept_from j mask = seq j (length mask).
Proof.
  intros H; revert j; induction H as [|m mask -> _ IH]; intros j; simpl; auto.
  now rewrite IH.
Qed.

Lemma nth_tl (A : Type) (l : list A) i d : nth i (tl l) d = nth (S i) l d.
Proof. destruct l; simpl; auto. now destruct i. Qed.

Lemma sanitize_fsub_above_eps a b :
  fgt (fsub a b) eps = true ->
  sanitize (fsub a b) = fsub (sanitize a) (sanitize b).
Proof. destruct a, b; simpl; intros H; try discriminate; reflexivity. Qed.

Lemma regular_mask rows :
  Forall (fun x => fgt x eps = true) (tl (dt_before rows)) ->
  dt_mask rows = match rows with
                 | [] => []
                 | _ :: tl => false :: repeat true (length tl)
                 end /\
  Forall (fun m => m = true) (tl (dt_mask rows)).
Proof.
  unfold dt_mask, dt_before. destruct rows as [|r rows]; simpl;
    [split; [reflexivity|constructor]|].
  intros H.
  assert (Hall : Forall (fun m => m = true)
                   (map (fun x => fgt x eps)
                      (map2 fsub (map fst rows) (fst r :: map fst rows)))).
  { apply Forall_forall. intros m Hm. apply in_map_iff in Hm.
    destruct Hm as (x & <- & Hx). rewrite Forall_forall in H. now apply H. }
  split; [|exact Hall]. f_equal.
  assert (L : length (map (fun x => fgt x eps)
                       (map2 fsub (map fst rows) (fst r :: map fst rows)))
              = length rows).
  { rewrite length_map, map2_length. simpl. rewrite !length_map. lia. }
  rewrite <- L. clear L. induction Hall as [|m l -> _ IH]; simpl; congruence.
Qed.

(** X4.  When every input row after the first has [dt > 1e-4], only the
    first row is dropped and the processed Series satisfies
    [dt[i] = t[i] - t[i-1]] for every [i > 0]. *)
Theorem regular_sampling_keeps_consecutive_dt rows window df :
  Forall (fun x => fgt x eps = true) (tl (dt_before rows)) ->
  analyze rows window = Some df ->
  kept rows = seq 1 (length rows - 1) /\
  t df = map sanitize (tl (map fst rows)) /\
  consecutive_dt_law df.
Proof.
  intros Hreg H. from_analyze H pre Hd.
  destruct (derive_columns _ _ Hd) as (Ht & _ & Hdt & _).
  destruct (regular_mask rows Hreg) as (Hmask & Htrue).
  assert (Hsel : forall s : list cell, length s = length rows ->
                   select (dt_mask rows) s = tl s).
  { intros s L. destruct (dt_mask rows) as [|m mask] eqn:E.
    - destruct rows; [|discriminate]. now destruct s.
    - destruct rows as [|r rows]; [discriminate|]. injection Hmask as -> ->.
      destruct s as [|x s]; [discriminate|]. simpl.
      apply select_all_true; [exact Htrue|].
      rewrite repeat_length. simpl in L. lia. }
  assert (Et : t pre = tl (map fst rows)).
  { rewrite Ht. unfold time_delta; simpl. apply Hsel. now rewrite length_map. }
  assert (Edt : dt pre = tl (dt_before rows)).
  { rewrite Hdt. unfold time_delta; simpl. apply Hsel.
    apply dt_before_length. }
  split; [|split].
  - unfold kept. destruct rows as [|r rows]; [reflexivity|].
    rewrite Hmask. simpl.
    rewrite kept_from_all_true by apply Forall_forall, repeat_spec.
    now rewrite repeat_length, Nat.sub_0_r.
  - unfold replace_inf; simpl. now rewrite Et.
  - unfold consecutive_dt_law, replace_inf; simpl. rewrite Et, Edt.
    intros i Hi. rewrite length_map in Hi.
    assert (Hlen : (S i < length (map fst rows))%nat).
    { destruct rows as [|r rows]; simpl in *; [lia|].
      rewrite map2_length, !length_map in Hi. simpl in Hi.
      rewrite length_map. lia. }
    assert (Hi' : (i < length (tl (dt_before rows)))%nat) by lia.
    rewrite !nth_map_lt with (da := NaN);
      [| destruct (map fst rows); simpl in *; lia
       | destruct (map fst rows); simpl in *; lia
       | exact Hi' ].
    rewrite !nth_tl. unfold dt_before.
    rewrite diff_nth by lia.
    replace (S (i - 1)) with i by lia.
    replace (S i - 1)%nat with i by lia.
    apply sanitize_fsub_above_eps.
    rewrite Forall_forall in Hreg.
    specialize (Hreg (nth i (tl (dt_before rows)) NaN) (nth_In _ _ Hi')).
    rewrite nth_tl in Hreg. unfold dt_before in Hreg.
    rewrite diff_nth in Hreg by lia.
    now replace (S i - 1)%nat with i in Hreg by lia.
Qed.

Lemma regular_sampling_keeps_consecutive_dt_witness :
  exists df, analyze static_rows 3 = Some df /\
             kept static_rows = [1; 2; 3]%nat /\ consecutive_dt_law df.
Proof.
  eexists. split; [reflexivity|].
  assert (Hreg : Forall (fun x => fgt x eps = true)
                   (tl (dt_before static_rows)))
    by (repeat constructor).
  destruct (regular_sampling_keeps_consecutive_dt static_rows 3 Hreg eq_refl)
    as (Hk & _ & Hlaw).
  split; [exact Hk | exact Hlaw].
Defined.

(** ** Means of rationals *)

Lemma Qc_of_nat_S n : Qc_of_nat (S n) = Qc_of_nat n + 1.
Proof.
  unfold Qc_of_nat, qc_of_Z. apply Qc_is_canon.
  unfold Qcplus, Q2Qc. cbn [this]. rewrite !Qred_correct.
  rewrite Nat2Z.inj_succ. unfold Z.succ. rewrite inject_Z_plus. reflexivity.
Qed.

Lemma Qc_of_nat_neq_0 n : (0 < n)%nat -> Qc_of_nat n <> 0.
Proof.
  intros Hn E. pose proof (Qc_of_nat_nonzero Hn) as H.
  rewrite E in H. discriminate.
Qed.

Lemma Qc_of_nat_pos n : (0 < n)%nat -> 0 < Qc_of_nat n.
Proof.
  intros Hn. unfold Qc_of_nat, qc_of_Z, Qclt.
  unfold Q2Qc; cbn [this]. rewrite !Qred_correct.
  unfold Qlt; simpl. lia.
Qed.

Lemma Qcsum_constant c l :
  Forall (fun a => a = c) l -> Qcsum l = Qc_of_nat (length l) * c.
Proof.
  induction 1 as [|a l -> _ IH]; simpl.
  - change (Qc_of_nat 0) with 0. ring.
  - fold (Qcsum l). rewrite IH, Qc_of_nat_S. ring.
Qed.

Lemma Qcsum_lower lo l :
  Forall (fun a => lo <= a) l -> Qc_of_nat (length l) * lo <= Qcsum l.
Proof.
  induction 1 as [|a l Ha _ IH]; simpl.
  - change (Qc_of_nat 0) with 0. rewrite Qcmult_0_l. apply Qcle_refl.
  - fold (Qcsum l). rewrite Qc_of_nat_S.
    replace ((Qc_of_nat (length l) + 1) * lo)
      with (lo + Qc_of_nat (length l) * lo) by ring.
    now apply Qcplus_le_compat.
Qed.

Lemma Qcsum_upper hi l :
  Forall (fun a => a <= hi) l -> Qcsum l <= Qc_of_nat (length l) * hi.
Proof.
  induction 1 as [|a l Ha _ IH]; simpl.
  - change (Qc_of_nat 0) with 0. rewrite Qcmult_0_l. apply Qcle_refl.
  - fold (Qcsum l). rewrite Qc_of_nat_S.
    replace ((Qc_of_nat (length l) + 1) * hi)
      with (hi + Qc_of_nat (length l) * hi) by ring.
    now apply Qcplus_le_compat.
Qed.

Lemma mean_in_range lo hi l :
  (0 < length l)%nat -> Forall (fun a => lo <= a <= hi) l ->
  lo <= Qcsum l / Qc_of_nat (length l) <= hi.
Proof.
  intros Hn H.
  pose proof (Qc_of_nat_pos Hn) as Hpos.
  pose proof (Qc_of_nat_neq_0 Hn) as Hne.
  assert (E : Qcsum l / Qc_of_nat (length l) * Qc_of_nat (length l) = Qcsum l)
    by (field; exact Hne).
  split; apply Qcmult_lt_0_le_reg_r with (z := Qc_of_nat (length l));
    try exact Hpos; rewrite E.
  - rewrite Qcmult_comm. apply Qcsum_lower.
    eapply Forall_impl; [|exact H]. simpl; tauto.
  - rewrite (Qcmult_comm hi). apply Qcsum_upper.
    eapply Forall_impl; [|exact H]. simpl; tauto.
Qed.

Lemma mean_constant c l :
  (0 < length l)%nat -> Forall (fun a => a = c) l ->
  Qcsum l / Qc_of_nat (length l) = c.
Proof.
  intros Hn H. rewrite (Qcsum_constant H). field.
  now apply Qc_of_nat_neq_0.
Qed.

(** ** Smoothing a constant, and the range of the smoothed values *)

Lemma constant_is_finite c s : Forall (fun x => x = Fin c) s -> Forall finite s.
Proof. intros H. eapply Forall_impl; [|exact H]. now intros x ->. Qed.

Lemma centered_means_of_constant signal window c :
  (0 < window)%Z -> Forall (fun x => x = Fin c) signal ->
  map (fun i =>
         calc_mean 1
           (slice (window_start (length signal) window true i)
                  (window_end (length signal) window true i) signal))
      (seq 0 (length signal)) = signal.
Proof.
  intros Hw Hc.
  apply nth_ext with (d := NaN) (d' := NaN);
    [now rewrite length_map, length_seq|].
  intros i Hi. rewrite length_map, length_seq in Hi.
  rewrite nth_map_lt with (da := 0%nat) by (rewrite length_seq; lia).
  rewrite seq_nth by lia. rewrite Nat.add_0_l.
  destruct (centered_window_bounds Hw Hi) as (B1 & B2 & B3).
  set (w := slice _ _ signal).
  assert (Hwc : Forall (fun x => x = Fin c) w) by now apply slice_Forall.
  assert (Hwl : (0 < length w)%nat)
    by (unfold w; rewrite slice_length; lia).
  rewrite calc_mean_finite;
    [| exact (constant_is_finite Hwc) | exact Hwl].
  rewrite <- (length_map value w), (mean_constant (c := c)).
  - rewrite Forall_forall in Hc. symmetry. apply Hc. now apply nth_In.
  - now rewrite length_map.
  - apply Forall_forall. intros a Ha. apply in_map_iff in Ha.
    destruct Ha as (x & <- & Hx). rewrite Forall_forall in Hwc.
    now rewrite (Hwc x Hx).
Qed.



Lemma observed_In a w : In a (observed w) -> In (Fin a) w.
Proof.
  induction w as [|x w IH]; simpl; [tauto|].
  destruct x; simpl; intros H; try (right; now apply IH).
  destruct H as [->|H]; [now left | right; now apply IH].
Qed.

(** X6.  Smoothing never leaves the range of the readings: when every
    finite cell of the series lies between [lo] and [hi], every cell of
    the result of [moving_average] is missing or lies between [lo] and
    [hi]. *)
Theorem moving_average_stays_in_range signal window lo hi out :
  (forall a, In (Fin a) signal -> lo <= a <= hi) ->
  moving_average signal window = Some out ->
  Forall (fun x => x = NaN \/ exists a, x = Fin a /\ lo <= a <= hi) out.
Proof.
  intros Hrange. unfold moving_average, rolling_mean.
  destruct ((window <? 0)%Z || _ || _)%bool; [discriminate|].
  intros H. injection H as <-.
  apply Forall_forall. intros x Hx. apply in_map_iff in Hx.
  destruct Hx as (i & <- & _). unfold calc_mean.
  set (w := slice _ _ (prep_values signal)).
  destruct (_ && _)%bool eqn:E; [right | now left].
  apply andb_true_iff in E. destruct E as [_ E].
  apply Nat.ltb_lt in E.
  eexists. split; [reflexivity|].
  apply mean_in_range; [exact E|].
  apply Forall_forall. intros a Ha. apply Hrange.
  apply observed_In in Ha. unfold w, slice in Ha.
  apply (proj1 (Forall_forall _ _)
           (slice_Forall (P := fun y => In y (prep_values signal)) _ _
              (proj2 (Forall_forall _ _) (fun y Hy => Hy)))) in Ha.
  unfold prep_values in Ha. apply in_map_iff in Ha.
  destruct Ha as (y & Hy & Hin). destruct y; try discriminate Hy.
  simpl in Hy. injection Hy as ->. exact Hin.
Qed.

Lemma moving_average_stays_in_range_witness :
  exists out, moving_average [z 0; NaN; z 255; PInf; z 12] 3 = Some out /\
    Forall (fun x => x = NaN \/
                     exists a, x = Fin a /\ qc_of_Z 0 <= a <= qc_of_Z 255) out.
Proof.
  eexists. split; [reflexivity|].
  apply moving_average_stays_in_range
    with (signal := [z 0; NaN; z 255; PInf; z 12]) (window := 3%Z);
    [|reflexivity].
  intros a [H|[H|[H|[H|[H|[]]]]]]; try discriminate H;
    injection H as <-; split; discriminate.
Defined.

(** ** A static object *)

Lemma Qceqb_false_neq a b : Qceqb a b = false -> a <> b.
Proof.
  intros H E. subst b. unfold Qceqb in H.
  now rewrite (proj1 (Qceq_alt a a) eq_refl) in H.
Qed.

Lemma zero_over_dt c y :
  fgt y eps = true -> fdiv (fsub (Fin c) (Fin c)) y = Fin 0.
Proof.
  destruct y as [b| | |]; simpl; intros H; try discriminate; auto.
  pose proof (fgt_eps_nonzero _ H) as Hb. rewrite Hb.
  f_equal. field. now apply Qceqb_false_neq.
Qed.

Lemma Forall_nth_lt (P : cell -> Prop) s i :
  Forall P s -> (i < length s)%nat -> P (nth i s NaN).
Proof. intros H Hi. rewrite Forall_forall in H. now apply H, nth_In. Qed.

Lemma zero_derivative x dts c i :
  Forall (fun v => fgt v eps = true) dts ->
  (0 < i < length (series_div (diff x) dts))%nat ->
  nth i x NaN = Fin c -> nth (i - 1) x NaN = Fin c ->
  nth i (series_div (diff x) dts) NaN = Fin 0.
Proof.
  intros Hdt Hi E1 E2. rewrite derivative_nth by exact Hi.
  unfold finite_difference. rewrite E1, E2. apply zero_over_dt.
  apply Forall_nth_lt; [exact Hdt|].
  unfold series_div in Hi. rewrite map2_length in Hi. lia.
Qed.

(** X7.  For a static object (every distance reading the same number) the
    smoothed distance equals the distance, the filtered derivatives equal
    the raw ones, the velocity is 0 at every index from 1 on and the
    acceleration is 0 at every index from 2 on, whatever the timestamps
    and the window. *)
Theorem static_object_zero_derivatives rows window df c :
  Forall (fun r => snd r = Fin c) rows ->
  analyze rows window = Some df ->
  distance_f df = distance df /\
  velocity_f df = velocity_raw df /\
  acceleration_f df = acceleration_raw df /\
  (forall i, (0 < i < length (velocity_raw df))%nat ->
     nth i (velocity_raw df) NaN = Fin 0) /\
  (forall i, (1 < i < length (acceleration_raw df))%nat ->
     nth i (acceleration_raw df) NaN = Fin 0).
Proof.
  intros Hc H. from_analyze H pre Hd.
  destruct (derive_columns _ _ Hd)
    as (_ & Hdist & Hdt & Hv & Ha & Hma & Hvf & Haf).
  assert (Hw : (0 < window)%Z).
  { destruct (Z.lt_ge_cases window 1) as [Hlt|]; [|lia].
    apply (moving_average_fails (td_distance (time_delta rows))) in Hlt.
    congruence. }
  assert (Hdc : Forall (fun x => x = Fin c) (td_distance (time_delta rows))).
  { unfold time_delta; simpl. apply select_Forall.
    apply Forall_forall. intros x Hx. apply in_map_iff in Hx.
    destruct Hx as (r & <- & Hr). rewrite Forall_forall in Hc. now apply Hc. }
  rewrite (moving_average_unfold _ Hw) in Hma.
  rewrite (prep_values_finite (constant_is_finite Hdc)) in Hma.
  rewrite (centered_means_of_constant Hw Hdc) in Hma. injection Hma as Hf.
  assert (Evf : velocity_f pre = velocity_raw pre)
    by now rewrite Hvf, Hv, <- Hf.
  assert (Eaf : acceleration_f pre = acceleration_raw pre)
    by now rewrite Haf, Ha, Evf.
  assert (Hgt : Forall (fun v => fgt v eps = true) (td_dt (time_delta rows))).
  { rewrite td_dt_filter. apply Forall_forall. intros x Hx.
    apply filter_In in Hx. tauto. }
  assert (Zv : forall i, (0 < i < length (velocity_raw pre))%nat ->
                 nth i (velocity_raw pre) NaN = Fin 0).
  { intros i Hi. rewrite Hv in Hi |- *.
    assert (Hl : (i < length (td_distance (time_delta rows)))%nat).
    { unfold series_div in Hi. rewrite map2_length, diff_length in Hi. lia. }
    apply zero_derivative with (c := c); auto;
      apply (Forall_nth_lt (P := fun x => x = Fin c)); auto; lia. }
  assert (Ef : distance_f pre = distance pre)
    by (rewrite Hdist; symmetry; exact Hf).
  unfold replace_inf; simpl.
  repeat split; try congruence.
  - intros i Hi. rewrite length_map in Hi.
    rewrite nth_map_lt with (da := NaN) by lia. now rewrite Zv.
  - intros i Hi. rewrite length_map in Hi.
    rewrite nth_map_lt with (da := NaN) by lia.
    rewrite Ha in Hi |- *.
    rewrite zero_derivative with (c := 0%Qc); auto; try lia.
    + apply Zv. unfold series_div in Hi.
      rewrite map2_length, diff_length in Hi. lia.
    + apply Zv. unfold series_div in Hi.
      rewrite map2_length, diff_length in Hi. lia.
Qed.

Lemma static_object_zero_derivatives_witness :
  exists df, analyze static_rows 5 = Some df /\
             distance_f df = distance df /\
             nth 2 (velocity_raw df) NaN = Fin 0.
Proof.
  eexists. split; [reflexivity|].
  assert (Hc : Forall (fun r => snd r = Fin (qc_of_Z 10)) static_rows)
    by (repeat constructor).
  destruct (@static_object_zero_derivatives static_rows 5 _ _ Hc eq_refl)
    as (H1 & _ & _ & H4 & _).
  split; [exact H1|]. apply H4. simpl; lia.
Defined.

(** ** [summarize_stats] *)

Lemma Qcltb_lt a b : Qcltb a b = true <-> a < b.
Proof.
  unfold Qcltb. rewrite Qclt_alt.
  destruct (a ?= b); split; intros H; congruence.
Qed.

Lemma Qcltb_ge a b : Qcltb a b = false <-> b <= a.
Proof.
  split; intros H.
  - apply Qcnot_lt_le. intros Hlt. apply Qcltb_lt in Hlt. congruence.
  - destruct (Qcltb a b) eqn:E; [|reflexivity].
    apply Qcltb_lt in E. now apply Qcle_not_lt in H.
Qed.

Lemma fle_refl x : x <> NaN -> fle x x = true.
Proof.
  destruct x as [a| | |]; simpl; intros H; try congruence; auto.
  apply negb_true_iff, Qcltb_ge, Qcle_refl.
Qed.

Lemma fle_trans x y w : fle x y = true -> fle y w = true -> fle x w = true.
Proof.
  destruct x as [a| | |], y as [b| | |], w as [c| | |]; simpl;
    intros H1 H2; try discriminate; auto.
  apply negb_true_iff, Qcltb_ge. apply negb_true_iff, Qcltb_ge in H1, H2.
  eapply Qcle_trans; eassumption.
Qed.

Lemma fmax_cases a b :
  a <> NaN -> b <> NaN ->
  (fmax a b = a \/ fmax a b = b) /\
  fle a (fmax a b) = true /\ fle b (fmax a b) = true.
Proof.
  intros Ha Hb. unfold fmax. destruct (fgt b a) eqn:E.
  - split; [now right|]. split; [|now apply fle_refl].
    destruct a as [p| | |], b as [r| | |]; simpl in *; try congruence; auto.
    apply negb_true_iff, Qcltb_ge, Qclt_le_weak. now apply Qcltb_lt.
  - split; [now left|]. split; [now apply fle_refl|].
    destruct a, b; simpl in *; try congruence; auto.
    now rewrite E.
Qed.

Lemma fold_fmax_greatest tl x :
  x <> NaN -> Forall (fun y => y <> NaN) tl ->
  let m := fold_left fmax tl x in
  m <> NaN /\ In m (x :: tl) /\
  forall y, In y (x :: tl) -> fle y m = true.
Proof.
  revert x; induction tl as [|y tl IH]; intros x Hx Htl; simpl.
  - split; [exact Hx|]. split; [now left|].
    intros y [<-|[]]. now apply fle_refl.
  - inversion Htl as [|? ? Hy Htl']; subst.
    destruct (fmax_cases Hx Hy) as (Hc & Lx & Ly).
    assert (Hm : fmax x y <> NaN) by (destruct Hc as [-> | ->]; assumption).
    destruct (IH (fmax x y) Hm Htl') as (N & I & U).
    split; [exact N|]. split.
    + destruct I as [I|I]; [|right; now right].
      rewrite <- I. destruct Hc as [-> | ->]; [now left | right; now left].
    + intros v [<-|[<-|Hv]].
      * eapply fle_trans; [exact Lx|]. apply U. now left.
      * eapply fle_trans; [exact Ly|]. apply U. now left.
      * apply U. now right.
Qed.

Lemma series_max_greatest s : greatest_of (series_max s) s.
Proof.
  unfold greatest_of, series_max.
  destruct (filter notna s) as [|x tl] eqn:E.
  - left. split; [reflexivity|]. apply Forall_forall. intros y Hy.
    destruct (isna y) eqn:Ey; [now destruct y|].
    assert (Hin : In y (filter notna s)).
    { apply filter_In. split; [exact Hy|]. unfold notna. now rewrite Ey. }
    rewrite E in Hin. destruct Hin.
  - right.
    assert (Hall : Forall (fun y => y <> NaN) (x :: tl)).
    { apply Forall_forall. intros y Hy. rewrite <- E in Hy.
      apply filter_In in Hy. destruct Hy as [_ Hy]. now destruct y. }
    inversion Hall as [|? ? Hx Htl]; subst.
    destruct (fold_fmax_greatest Hx Htl) as (N & I & U).
    split; [exact N|]. split.
    + rewrite <- E in I. now apply filter_In in I.
    + intros y Hy Hn. apply U. rewrite <- E. apply filter_In.
      split; [exact Hy | now destruct y].
Qed.

(** X8.  On the DataFrame returned by [analyze], each of the five numbers
    of [summarize_stats] is the greatest non-missing cell of its column
    (missing when the column has none), and none of them is infinite. *)
Theorem summarize_stats_reports_maxima rows window df :
  analyze rows window = Some df ->
  greatest_of (duration (summarize_stats df)) (t df) /\
  greatest_of (max_velocity_raw (summarize_stats df)) (velocity_raw df) /\
  greatest_of (max_velocity_f (summarize_stats df)) (velocity_f df) /\
  greatest_of (max_acceleration_raw (summarize_stats df))
              (acceleration_raw df) /\
  greatest_of (max_acceleration_f (summarize_stats df)) (acceleration_f df) /\
  Forall finite_or_missing
    [duration (summarize_stats df); max_velocity_raw (summarize_stats df);
     max_velocity_f (summarize_stats df);
     max_acceleration_raw (summarize_stats df);
     max_acceleration_f (summarize_stats df)].
Proof.
  intros H. unfold summarize_stats; simpl.
  repeat (split; [apply series_max_greatest|]).
  assert (Hclean : forall s, Forall finite_or_missing s ->
                     finite_or_missing (series_max s)).
  { intros s Hs. destruct (series_max_greatest s) as [[-> _]|(_ & Hin & _)].
    - now right.
    - rewrite Forall_forall in Hs. now apply Hs. }
  from_analyze H pre Hd. unfold replace_inf; simpl.
  repeat (constructor; [apply Hclean, map_sanitize_clean|]). constructor.
Qed.

Lemma summarize_stats_reports_maxima_witness :
  exists df, analyze inf_jump_rows 1 = Some df /\
             finite_or_missing (max_velocity_raw (summarize_stats df)).
Proof.
  eexists. split; [reflexivity|].
  pose proof (summarize_stats_reports_maxima inf_jump_rows 1 eq_refl)
    as (_ & _ & _ & _ & _ & H).
  inversion H as [|? ? _ H']. inversion H' as [|? ? Hv _]. exact Hv.
Defined.

(** ** The sample rate of a processed Series *)

Lemma mean_lower lo l :
  (0 < length l)%nat -> Forall (fun a => lo <= a) l ->
  lo <= Qcsum l / Qc_of_nat (length l).
Proof.
  intros Hn H.
  pose proof (Qc_of_nat_pos Hn) as Hpos.
  pose proof (Qc_of_nat_neq_0 Hn) as Hne.
  assert (E : Qcsum l / Qc_of_nat (length l) * Qc_of_nat (length l) = Qcsum l)
    by (field; exact Hne).
  apply Qcmult_lt_0_le_reg_r with (z := Qc_of_nat (length l));
    [exact Hpos|]. rewrite E, Qcmult_comm. now apply Qcsum_lower.
Qed.

Lemma round_half_even_bounds (x : Q) (N : Z) :
  (0 <= x)%Q -> (x <= inject_Z N)%Q ->
  (0 <= round_half_even x <= N)%Z.
Proof.
  intros H0 HN. unfold round_half_even.
  pose proof (Qfloor_le x) as Hf1.
  pose proof (Qlt_floor x) as Hf2.
  assert (F0 : (0 <= Qfloor x)%Z).
  { assert (Hlt : (inject_Z 0 < inject_Z (Qfloor x + 1))%Q)
      by (eapply Qle_lt_trans; [exact H0 | exact Hf2]).
    rewrite <- Zlt_Qlt in Hlt. lia. }
  assert (FN : (Qfloor x <= N)%Z).
  { rewrite Zle_Qle. eapply Qle_trans; eassumption. }
  assert (Hstep : (0 < x - inject_Z (Qfloor x))%Q -> (Qfloor x + 1 <= N)%Z).
  { intros Hpos.
    assert (Hlt : (inject_Z (Qfloor x) < inject_Z N)%Q).
    { eapply Qlt_le_trans; [|exact HN].
      apply Qlt_minus_iff. exact Hpos. }
    rewrite <- Zlt_Qlt in Hlt. lia. }
  destruct (Qcompare (x - inject_Z (Qfloor x)) (1 # 2)) eqn:E.
  - apply Qeq_alt in E.
    assert (Hpos : (0 < x - inject_Z (Qfloor x))%Q) by (rewrite E; reflexivity).
    specialize (Hstep Hpos). destruct (Z.even (Qfloor x)); lia.
  - lia.
  - apply Qgt_alt in E.
    assert (Hpos : (0 < x - inject_Z (Qfloor x))%Q)
      by (eapply Qlt_trans; [|exact E]; reflexivity).
    specialize (Hstep Hpos). lia.
Qed.

Lemma eps_times_100000 : frac 1 10000 * qc_of_Z 100000 = qc_of_Z 10.
Proof. apply Qc_is_canon. reflexivity. Qed.

Lemma eps_positive : 0 < frac 1 10000.
Proof. reflexivity. Qed.

Lemma rate_bounds m :
  frac 1 10000 <= m ->
  exists r, round1 (Fin (1 / m)) = Fin r /\ 0 <= r <= qc_of_Z 10000.
Proof.
  intros Hm.
  assert (Hpos : 0 < m) by (eapply Qclt_le_trans; [apply eps_positive|exact Hm]).
  assert (Hne : m <> 0) by (apply not_eq_sym, Qclt_not_eq, Hpos).
  assert (E : 1 / m * qc_of_Z 10 * m = qc_of_Z 10) by (field; exact Hne).
  assert (Hlo : 0 <= 1 / m * qc_of_Z 10).
  { apply Qcmult_lt_0_le_reg_r with (z := m); [exact Hpos|].
    rewrite E, Qcmult_0_l. discriminate. }
  assert (Hhi : 1 / m * qc_of_Z 10 <= qc_of_Z 100000).
  { apply Qcmult_lt_0_le_reg_r with (z := m); [exact Hpos|].
    rewrite E, <- eps_times_100000, (Qcmult_comm (qc_of_Z 100000)).
    apply Qcmult_le_compat_r; [exact Hm | discriminate]. }
  eexists. split; [reflexivity|].
  assert (Hk : (0 <= round_half_even (this (1 / m) * 10) <= 100000)%Z).
  { apply round_half_even_bounds.
    - unfold Qcle, Qcmult, Q2Qc, qc_of_Z in Hlo; cbn [this] in Hlo.
      rewrite !Qred_correct in Hlo. exact Hlo.
    - unfold Qcle, Qcmult, Q2Qc, qc_of_Z in Hhi; cbn [this] in Hhi.
      rewrite !Qred_correct in Hhi. exact Hhi. }
  set (k := round_half_even (this (1 / m) * 10)) in *.
  unfold Qcle, Q2Qc, qc_of_Z; cbn [this]. rewrite !Qred_correct.
  unfold Qle, Qdiv, Qmult, Qinv, inject_Z; simpl. lia.
Qed.

Lemma gapped_series_mean s :
  Forall (fun x => x = NaN \/ exists b, x = Fin b /\ frac 1 10000 <= b) s ->
  (series_mean s = NaN /\ Forall (fun x => x = NaN) s) \/
  (exists m, series_mean s = Fin m /\ frac 1 10000 <= m).
Proof.
  intros H. unfold series_mean.
  assert (Hvals : Forall (fun x => exists b, x = Fin b /\ frac 1 10000 <= b)
                    (filter notna s)).
  { apply Forall_forall. intros x Hx. apply filter_In in Hx.
    destruct Hx as [Hin Hn]. rewrite Forall_forall in H.
    destruct (H x Hin) as [->|Hb]; [discriminate Hn | exact Hb]. }
  destruct (filter notna s) as [|x tl] eqn:E.
  - left. split; [reflexivity|]. apply Forall_forall. intros y Hy.
    destruct (isna y) eqn:Ey; [now destruct y|].
    assert (Hin : In y (filter notna s)).
    { apply filter_In. split; [exact Hy|]. unfold notna. now rewrite Ey. }
    rewrite E in Hin. destruct Hin.
  - right.
    assert (Hfin : Forall finite (x :: tl)).
    { eapply Forall_impl; [|exact Hvals]. now intros y (b & -> & _). }
    rewrite (sum_finite Hfin). unfold fdiv.
    rewrite Qc_of_nat_nonzero by (simpl; lia).
    eexists. split; [reflexivity|].
    rewrite <- (length_map value (x :: tl)).
    apply mean_lower; [rewrite length_map; simpl; lia|].
    apply Forall_forall. intros a Ha. apply in_map_iff in Ha.
    destruct Ha as (y & <- & Hy). rewrite Forall_forall in Hvals.
    destruct (Hvals y Hy) as (b & -> & Hb). exact Hb.
Qed.

(** ** C7: the rate of a processed Series *)

Lemma all_missing_no_number s :
  Forall (fun x => x = NaN) s -> ~ Exists finite s.
Proof.
  intros H Hex. apply Exists_exists in Hex. destruct Hex as (x & Hx & Hf).
  rewrite Forall_forall in H. rewrite (H x Hx) in Hf. discriminate Hf.
Qed.

Lemma mean_number s m : series_mean s = Fin m -> Exists finite s.
Proof.
  unfold series_mean. intros H.
  destruct (filter notna s) as [|x tl] eqn:E; [discriminate H|].
  assert (Hx : In x (filter notna s)) by (rewrite E; now left).
  apply filter_In in Hx. destruct Hx as [Hin Hn].
  destruct (isfinite x) eqn:F.
  - apply Exists_exists. exists x. split; [exact Hin | exact F].
  - exfalso. destruct x as [a| | |]; try discriminate F; try discriminate Hn.
    + clear - H. cbn [fold_right] in H.
      destruct (fold_right fadd (Fin 0) tl) as [b| | |]; cbn [fadd fdiv] in H;
        try discriminate H; destruct (Qcltb _ 0); discriminate H.
    + clear - H. cbn [fold_right] in H.
      destruct (fold_right fadd (Fin 0) tl) as [b| | |]; cbn [fadd fdiv] in H;
        try discriminate H; destruct (Qcltb _ 0); discriminate H.
Qed.

Lemma processed_dt_gapped rows window df :
  analyze rows window = Some df ->
  Forall (fun x => x = NaN \/ exists b, x = Fin b /\ frac 1 10000 <= b) (dt df).
Proof.
  intros H. from_analyze H pre Hd.
  destruct (derive_columns _ _ Hd) as (_ & _ & Hdt & _).
  unfold replace_inf; simpl. rewrite Hdt, td_dt_filter.
  apply Forall_forall. intros x Hx. apply in_map_iff in Hx.
  destruct Hx as (y & <- & Hy). apply filter_In in Hy.
  destruct Hy as [_ Hy]. destruct y as [b| | |]; simpl in *;
    try discriminate; auto.
  right. exists b. split; [reflexivity|].
  apply Qclt_le_weak. now apply Qcltb_lt.
Qed.

(** C7, as the code has it.  [safe_sample_rate] never raises; it returns
    [round(1 / mean(dt), 1)] when the mean of the non-missing [dt] cells
    is positive and the undefined marker otherwise, in particular when
    the [dt] column is empty, which is the case when the input table has
    fewer than two rows.  On a column of finite cells the mean is the sum
    of the cells divided by their number.  The number of samples plays no
    other role: the rate of a processed Series is the undefined marker
    exactly when no cell of its [dt] column is a number, and a number
    exactly when some cell is. *)
Theorem safe_sample_rate_total :
  (forall df, safe_sample_rate df = Some (sample_rate_as_specified df)) /\
  (forall df, dt df = [] -> safe_sample_rate df = Some NaN) /\
  (forall rows window df,
      (length rows < 2)%nat -> analyze rows window = Some df ->
      safe_sample_rate df = Some NaN) /\
  (forall df, Forall finite (dt df) -> dt df <> [] ->
      series_mean (dt df) =
      Fin (Qcsum (map value (dt df)) / Qc_of_nat (length (dt df)))) /\
  (forall rows window df, analyze rows window = Some df ->
      (safe_sample_rate df = Some NaN <-> Forall (fun x => x = NaN) (dt df)) /\
      ((exists r, safe_sample_rate df = Some (Fin r)) <->
       Exists finite (dt df))).
Proof.
  split; [exact safe_sample_rate_value|].
  assert (Hempty : forall df, dt df = [] -> safe_sample_rate df = Some NaN).
  { intros df H. rewrite safe_sample_rate_value.
    unfold sample_rate_as_specified. now rewrite H. }
  split; [exact Hempty|]. split; [|split].
  - intros rows window df Hlen H. apply Hempty.
    from_analyze H pre Hd.
    destruct (derive_columns _ _ Hd) as (_ & _ & Hdt & _).
    destruct (time_delta_kept rows) as (_ & _ & Kdt).
    unfold replace_inf; simpl.
    now rewrite Hdt, Kdt, (short_table_keeps_nothing _ Hlen).
  - intros df. apply series_mean_finite.
  - intros rows window df H.
    pose proof (processed_dt_gapped _ _ H) as Hgap.
    rewrite safe_sample_rate_value. unfold sample_rate_as_specified.
    destruct (gapped_series_mean Hgap) as [[E Hall]|(m & E & Hm)].
    + rewrite E. simpl. split.
      * split; [intros _; exact Hall | reflexivity].
      * split; [intros (r & Hr); discriminate Hr|].
        intros Hex. now apply all_missing_no_number in Hex.
    + assert (Hpos : 0 < m)
        by (eapply Qclt_le_trans; [apply eps_positive|exact Hm]).
      assert (G : fgt (Fin m) (Fin 0) = true) by now apply Qcltb_lt.
      pose proof (mean_number _ E) as Hex.
      rewrite E, G. unfold fdiv. rewrite (Qcltb_zero_nonzero _ G).
      split.
      * split; [intros Hr; discriminate Hr|].
        intros Hall. now apply all_missing_no_number in Hex.
      * split; [intros _; exact Hex|].
        intros _. eexists. reflexivity.
Qed.

Lemma safe_sample_rate_total_witness :
  ((length one_row < 2)%nat /\
   exists df, analyze one_row 5 = Some df /\ safe_sample_rate df = Some NaN) /\
  (exists df, analyze two_rows 1 = Some df /\
     Exists finite (dt df) /\ exists r, safe_sample_rate df = Some (Fin r)) /\
  (exists df, analyze [(z 0, z 10); (PInf, z 10)] 1 = Some df /\
     length (dt df) = 1%nat /\ Forall (fun x => x = NaN) (dt df) /\
     safe_sample_rate df = Some NaN).
Proof.
  assert (Hlen : (length one_row < 2)%nat) by (simpl; lia).
  split; [|split].
  - split; [exact Hlen|].
    eexists. split; [reflexivity|].
    exact (proj1 (proj2 (proj2 safe_sample_rate_total))
             one_row 5%Z _ Hlen eq_refl).
  - eexists. split; [reflexivity|].
    match goal with
    | |- Exists finite ?c /\ _ =>
        assert (Hex : Exists finite c) by (left; reflexivity)
    end.
    split; [exact Hex|].
    destruct safe_sample_rate_total as (_ & _ & _ & _ & Hrate).
    exact (proj2 (proj2 (Hrate two_rows 1%Z _ eq_refl)) Hex).
  - eexists. split; [reflexivity|]. split; [reflexivity|].
    match goal with
    | |- Forall _ ?c /\ _ =>
        assert (Hall : Forall (fun x => x = NaN) c)
          by (repeat constructor)
    end.
    split; [exact Hall|].
    destruct safe_sample_rate_total as (_ & _ & _ & _ & Hrate).
    exact (proj2 (proj1 (Hrate [(z 0, z 10); (PInf, z 10)] 1%Z _ eq_refl))
             Hall).
Defined.

(** X9.  The sample rate of a processed Series: when the [dt] column of
    the DataFrame returned by [analyze] holds no number the rate is the
    undefined marker; otherwise it is a number between 0 and 10000 (the
    filter [dt > 1e-4] bounds the mean [dt] from below). *)
Theorem processed_sample_rate_bounds rows window df :
  analyze rows window = Some df ->
  (Forall (fun x => x = NaN) (dt df) /\ safe_sample_rate df = Some NaN) \/
  (exists r, safe_sample_rate df = Some (Fin r) /\ 0 <= r <= qc_of_Z 10000).
Proof.
  intros H. from_analyze H pre Hd.
  destruct (derive_columns _ _ Hd) as (_ & _ & Hdt & _).
  assert (Hgap : Forall (fun x => x = NaN \/
                                  exists b, x = Fin b /\ frac 1 10000 <= b)
                   (dt (replace_inf pre))).
  { unfold replace_inf; simpl. rewrite Hdt, td_dt_filter.
    apply Forall_forall. intros x Hx. apply in_map_iff in Hx.
    destruct Hx as (y & <- & Hy). apply filter_In in Hy.
    destruct Hy as [_ Hy]. destruct y as [b| | |]; simpl in *;
      try discriminate; auto.
    right. exists b. split; [reflexivity|].
    apply Qclt_le_weak. now apply Qcltb_lt. }
  rewrite safe_sample_rate_value. unfold sample_rate_as_specified.
  destruct (gapped_series_mean Hgap) as [[-> Hall]|(m & -> & Hm)].
  - left. split; [exact Hall | reflexivity].
  - right.
    assert (Hpos : 0 < m)
      by (eapply Qclt_le_trans; [apply eps_positive|exact Hm]).
    assert (G : fgt (Fin m) (Fin 0) = true) by now apply Qcltb_lt.
    rewrite G. unfold fdiv. rewrite (Qcltb_zero_nonzero _ G).
    destruct (rate_bounds Hm) as (r & -> & Hr).
    exists r. split; [reflexivity | exact Hr].
Qed.

Lemma processed_sample_rate_bounds_witness :
  exists df, analyze two_rows 1 = Some df /\
             exists r, safe_sample_rate df = Some (Fin r) /\
                       0 <= r <= qc_of_Z 10000.
Proof.
  eexists. split; [reflexivity|].
  destruct (processed_sample_rate_bounds two_rows 1 eq_refl)
    as [[Hall _]|Hr]; [|exact Hr].
  exfalso. inversion Hall as [|? ? Hx _]. discriminate Hx.
Defined.

(** * Further properties of [distance_log.py] *)

(** ** The trailing, back-filled rolling mean *)

Lemma observed_length w : (length (observed w) <= length w)%nat.
Proof.
  induction w as [|x w IH]; simpl; [lia|]. destruct x; simpl; lia.
Qed.

Lemma trailing_unfold x_raw window :
  (0 <= window)%Z ->
  rolling_mean x_raw window false None =
  Some (map (fun i =>
               calc_mean window
                 (slice (window_start (length x_raw) window false i)
                        (window_end (length x_raw) window false i)
                        (prep_values x_raw)))
            (seq 0 (length x_raw))).
Proof.
  intros Hw. unfold rolling_mean.
  destruct (Z.ltb_spec window 0); [lia|].
  rewrite Z.ltb_irrefl. simpl.
  assert (L : length (prep_values x_raw) = length x_raw)
    by apply length_map.
  now rewrite L.
Qed.

Lemma trailing_window n w i :
  (i < n)%nat ->
  window_start n (Z.of_nat w) false i = (i + 1 - w)%nat /\
  window_end n (Z.of_nat w) false i = S i.
Proof. intros Hi. unfold window_start, window_end, clip. lia. Qed.

Lemma trailing_short_window s window i :
  (i < length s)%nat -> (Z.of_nat (length s) < window)%Z ->
  calc_mean window
    (slice (window_start (length s) window false i)
           (window_end (length s) window false i) (prep_values s)) = NaN.
Proof.
  intros Hi Hn. unfold calc_mean.
  set (w := slice _ _ _).
  assert (Hl : (length (observed w) <= length s)%nat).
  { etransitivity; [apply observed_length|]. unfold w, slice.
    rewrite length_firstn, length_skipn. unfold prep_values.
    rewrite length_map. lia. }
  destruct (Z.leb_spec window (Z.of_nat (length (observed w)))); [lia|].
  reflexivity.
Qed.

Lemma bfill_all_missing s : Forall (fun x => x = NaN) s -> bfill s = s.
Proof.
  induction 1 as [|x s -> Hs IH]; simpl; auto.
  rewrite IH. destruct Hs as [|y s -> _]; reflexivity.
Qed.

(** X10.  A log shorter than the window gets no filtered value at all:
    when the series has fewer cells than the window, [x_filtered] is
    missing at every index (the back-fill finds nothing to copy). *)
Theorem x_filtered_short_series x_raw window :
  (Z.of_nat (length x_raw) < window)%Z ->
  x_filtered x_raw window = Some (repeat NaN (length x_raw)).
Proof.
  intros Hn. unfold x_filtered.
  rewrite trailing_unfold by lia. simpl. f_equal.
  assert (E : map (fun i =>
                     calc_mean window
                       (slice (window_start (length x_raw) window false i)
                              (window_end (length x_raw) window false i)
                              (prep_values x_raw)))
                  (seq 0 (length x_raw)) = repeat NaN (length x_raw)).
  { apply nth_ext with (d := NaN) (d' := NaN);
      [now rewrite length_map, length_seq, repeat_length|].
    intros i Hi. rewrite length_map, length_seq in Hi.
    rewrite nth_map_lt with (da := 0%nat) by (rewrite length_seq; lia).
    rewrite seq_nth by lia. rewrite Nat.add_0_l.
    rewrite nth_repeat. now apply trailing_short_window. }
  rewrite E. apply bfill_all_missing.
  apply Forall_forall. intros x Hx. now apply repeat_spec in Hx.
Qed.

Lemma x_filtered_short_series_witness :
  x_filtered [z 1; z 2; z 3; z 4] 5 = Some [NaN; NaN; NaN; NaN].
Proof.
  apply (@x_filtered_short_series [z 1; z 2; z 3; z 4] 5). reflexivity.
Defined.

Lemma bfill_length s : length (bfill s) = length s.
Proof. induction s as [|x s IH]; simpl; auto. Qed.

Lemma bfill_leading a b :
  Forall (fun x => x = NaN) a -> Forall (fun x => isna x = false) b ->
  b <> [] ->
  bfill (a ++ b) = repeat (hd NaN b) (length a) ++ b.
Proof.
  intros Ha Hb Hne. induction Ha as [|x a -> _ IH]; simpl.
  - now apply bfill_notna.
  - rewrite IH. f_equal. destruct a as [|y a]; simpl; [|reflexivity].
    destruct b; [congruence | reflexivity].
Qed.

Lemma bfill_leading_gap (F : nat -> cell) k n :
  (k < n)%nat ->
  (forall i, (i < k)%nat -> F i = NaN) ->
  (forall i, (k <= i < n)%nat -> isna (F i) = false) ->
  bfill (map F (seq 0 n)) = map (fun i => F (Nat.max i k)) (seq 0 n).
Proof.
  intros Hk Hgap Hdef.
  replace n with (k + (n - k))%nat by lia.
  rewrite seq_app, !map_app. simpl.
  rewrite bfill_leading.
  - f_equal.
    + rewrite length_map, length_seq.
      replace (n - k)%nat with (S (n - k - 1)) by lia. simpl.
      rewrite <- (length_seq k 0) at 2. rewrite <- map_const.
      apply map_ext_in. intros i Hi. apply in_seq in Hi.
      f_equal. lia.
    + apply map_ext_in. intros i Hi. apply in_seq in Hi. f_equal. lia.
  - apply Forall_forall. intros x Hx. apply in_map_iff in Hx.
    destruct Hx as (i & <- & Hi). apply in_seq in Hi. apply Hgap. lia.
  - apply Forall_forall. intros x Hx. apply in_map_iff in Hx.
    destruct Hx as (i & <- & Hi). apply in_seq in Hi. apply Hdef. lia.
  - replace (n - k)%nat with (S (n - k - 1)) by lia. discriminate.
Qed.

(** The cell of the trailing rolling mean at index [i]. *)
Lemma trailing_cell_finite x_raw w i :
  Forall finite x_raw -> (1 <= w)%nat -> (i < length x_raw)%nat ->
  calc_mean (Z.of_nat w)
    (slice (window_start (length x_raw) (Z.of_nat w) false i)
           (window_end (length x_raw) (Z.of_nat w) false i) x_raw) =
  if (w <=? S i)%nat then Fin (arithmetic_mean x_raw (i + 1 - w) i) else NaN.
Proof.
  intros Hfin Hw Hi.
  destruct (trailing_window w Hi) as [-> ->].
  set (win := slice (i + 1 - w) (S i) x_raw).
  assert (Hwf : Forall finite win) by now apply slice_Forall.
  assert (Hwl : length win = (S i - (i + 1 - w))%nat)
    by (unfold win; apply slice_length; lia).
  unfold calc_mean. rewrite (observed_finite Hwf), length_map, Hwl.
  destruct (Nat.leb_spec w (S i)) as [Hle|Hgt].
  - destruct (Z.leb_spec (Z.of_nat w) (Z.of_nat (S i - (i + 1 - w))));
      [|lia].
    destruct (Nat.ltb_spec 0 (S i - (i + 1 - w))); [|lia].
    simpl. f_equal. unfold arithmetic_mean, win.
    rewrite slice_nth with (d := NaN) by lia. rewrite map_map.
    replace (i + 1 - (i + 1 - w))%nat with (S i - (i + 1 - w))%nat by lia.
    reflexivity.
  - destruct (Z.leb_spec (Z.of_nat w) (Z.of_nat (S i - (i + 1 - w))));
      [lia|]. reflexivity.
Qed.

Lemma x_filtered_cells x_raw w :
  Forall finite x_raw -> (1 <= w <= length x_raw)%nat ->
  x_filtered x_raw (Z.of_nat w) =
  Some (map (fun i =>
               Fin (arithmetic_mean x_raw (Nat.max i (w - 1) + 1 - w)
                      (Nat.max i (w - 1))))
            (seq 0 (length x_raw))).
Proof.
  intros Hfin Hw. unfold x_filtered.
  rewrite trailing_unfold by lia. rewrite (prep_values_finite Hfin).
  simpl. f_equal.
  rewrite bfill_leading_gap with (k := (w - 1)%nat).
  - apply map_ext_in. intros i Hi. apply in_seq in Hi.
    rewrite trailing_cell_finite by (try assumption; lia).
    destruct (Nat.leb_spec w (S (Nat.max i (w - 1)))); [reflexivity|lia].
  - lia.
  - intros i Hi. rewrite trailing_cell_finite by (try assumption; lia).
    destruct (Nat.leb_spec w (S i)); [lia|reflexivity].
  - intros i Hi. rewrite trailing_cell_finite by (try assumption; lia).
    destruct (Nat.leb_spec w (S i)); [reflexivity|lia].
Qed.

Lemma x_filtered_nth x_raw w xf i :
  Forall finite x_raw -> (1 <= w <= length x_raw)%nat ->
  x_filtered x_raw (Z.of_nat w) = Some xf -> (i < length x_raw)%nat ->
  nth i xf NaN =
  Fin (arithmetic_mean x_raw (Nat.max i (w - 1) + 1 - w) (Nat.max i (w - 1))).
Proof.
  intros Hfin Hw Hx Hi. rewrite (x_filtered_cells Hfin Hw) in Hx.
  injection Hx as <-.
  rewrite nth_map_lt with (da := 0%nat) by (rewrite length_seq; lia).
  now rewrite seq_nth by lia.
Qed.

(** X11.  On a series of finite values with at least [W] cells,
    [x_filtered] has no missing value: from index [W - 1] on it is the
    mean of the [W] readings ending at that index, and the [W - 1] cells
    before are copies of the value at index [W - 1]. *)
Theorem x_filtered_trailing_backfilled x_raw w :
  Forall finite x_raw -> (1 <= w <= length x_raw)%nat ->
  exists xf,
    x_filtered x_raw (Z.of_nat w) = Some xf /\
    length xf = length x_raw /\
    (forall i, (w - 1 <= i < length x_raw)%nat ->
       nth i xf NaN = Fin (arithmetic_mean x_raw (i + 1 - w) i)) /\
    (forall i, (i < w - 1)%nat -> nth i xf NaN = nth (w - 1) xf NaN).
Proof.
  intros Hfin Hw. eexists. split; [apply (x_filtered_cells Hfin Hw)|].
  split; [now rewrite length_map, length_seq|]. split.
  - intros i Hi.
    rewrite (x_filtered_nth (i := i) Hfin Hw (x_filtered_cells Hfin Hw)) by lia.
    now replace (Nat.max i (w - 1)) with i by lia.
  - intros i Hi.
    rewrite (x_filtered_nth (i := i) Hfin Hw (x_filtered_cells Hfin Hw))
      by lia.
    rewrite (x_filtered_nth (i := (w - 1)%nat) Hfin Hw
               (x_filtered_cells Hfin Hw)) by lia.
    now replace (Nat.max i (w - 1)) with (Nat.max (w - 1) (w - 1)) by lia.
Qed.

Lemma x_filtered_trailing_backfilled_witness :
  exists xf, x_filtered ramp 3 = Some xf /\
             nth 4 xf NaN = Fin (arithmetic_mean ramp 2 4) /\
             nth 0 xf NaN = nth 2 xf NaN.
Proof.
  assert (Hw : (1 <= 3 <= length ramp)%nat) by (simpl; lia).
  destruct (@x_filtered_trailing_backfilled ramp 3 ramp_finite Hw)
    as (xf & H1 & _ & H3 & H4).
  exists xf. split; [exact H1|]. split.
  - apply (H3 4%nat). simpl; lia.
  - apply (H4 0%nat). lia.
Defined.

(** ** The filtered velocity of [process_and_plot] *)

Lemma filtered_columns_shape ts x_raw window sm :
  filtered_columns ts x_raw window = Some sm ->
  x_filtered x_raw window = Some (sm_x_filtered sm) /\
  sm_v_filtered sm = series_div (diff (sm_x_filtered sm)) (diff ts) /\
  sm_a_filtered sm = series_div (diff (sm_v_filtered sm)) (diff ts).
Proof.
  unfold filtered_columns. destruct (x_filtered x_raw window); [|discriminate].
  intros H. injection H as <-. simpl. repeat split; reflexivity.
Qed.

Lemma x_filtered_length x_raw window xf :
  x_filtered x_raw window = Some xf -> length xf = length x_raw.
Proof.
  unfold x_filtered.
  destruct (rolling_mean x_raw window false None) as [r|] eqn:E;
    [|discriminate].
  intros H. injection H as <-.
  now rewrite bfill_length, (rolling_mean_length _ _ _ _ E).
Qed.

Lemma quotient_nth x ts i :
  (0 < i)%nat -> (i < length x)%nat -> (i < length ts)%nat ->
  nth i (series_div (diff x) (diff ts)) NaN =
  fdiv (fsub (nth i x NaN) (nth (i - 1) x NaN))
       (fsub (nth i ts NaN) (nth (i - 1) ts NaN)).
Proof.
  intros H0 Hx Ht.
  rewrite derivative_nth
    by (unfold series_div; rewrite map2_length, !diff_length; lia).
  unfold finite_difference. now rewrite (diff_nth ts) by lia.
Qed.

(** X12.  The back-filled cells give a spurious rest: on a series of
    finite values with at least [W] cells, the filtered velocity of
    [process_and_plot] is exactly 0 at every index from 1 to [W - 1]
    whose timestamp differs from the one before, whatever the readings. *)
Theorem backfill_gives_zero_velocity ts x_raw w sm i a b :
  Forall finite x_raw -> (1 <= w <= length x_raw)%nat ->
  filtered_columns ts x_raw (Z.of_nat w) = Some sm ->
  (0 < i < w)%nat -> (i < length ts)%nat ->
  nth i ts NaN = Fin a -> nth (i - 1) ts NaN = Fin b -> a <> b ->
  nth i (sm_v_filtered sm) NaN = Fin 0.
Proof.
  intros Hfin Hw Hsm Hi Hit Ea Eb Hab.
  destruct (filtered_columns_shape _ _ _ Hsm) as (Hx & -> & _).
  rewrite quotient_nth
    by (rewrite ?(x_filtered_length _ _ Hx); lia).
  rewrite (x_filtered_nth (i := i) Hfin Hw Hx) by lia.
  rewrite (x_filtered_nth (i := (i - 1)%nat) Hfin Hw Hx) by lia.
  replace (Nat.max (i - 1) (w - 1)) with (Nat.max i (w - 1)) by lia.
  rewrite Ea, Eb. simpl.
  assert (Hne : a + - b <> 0).
  { intros E. apply Hab. rewrite <- (Qcplus_0_l b), <- E. ring. }
  destruct (Qceqb (a + - b) 0) eqn:E; [now apply Qceqb_eq in E|].
  f_equal. field. exact Hne.
Qed.

Lemma backfill_gives_zero_velocity_witness :
  exists sm, filtered_columns [z 0; z 1; z 2; z 3; z 4] ramp 3 = Some sm /\
             nth 1 (sm_v_filtered sm) NaN = Fin 0 /\
             nth 2 (sm_v_filtered sm) NaN = Fin 0.
Proof.
  eexists. split; [reflexivity|].
  assert (Hw : (1 <= 3 <= length ramp)%nat) by (simpl; lia).
  split.
  - apply (@backfill_gives_zero_velocity [z 0; z 1; z 2; z 3; z 4] ramp 3 _
             1%nat (qc_of_Z 1) (qc_of_Z 0) ramp_finite Hw eq_refl);
      try reflexivity; try (simpl; lia); discriminate.
  - apply (@backfill_gives_zero_velocity [z 0; z 1; z 2; z 3; z 4] ramp 3 _
             2%nat (qc_of_Z 2) (qc_of_Z 1) ramp_finite Hw eq_refl);
      try reflexivity; try (simpl; lia); discriminate.
Defined.

(** X13.  [process_and_plot] has no guard on the time step: where two
    consecutive rows carry the same timestamp and different filtered
    distances, the filtered velocity is infinite. *)
Theorem repeated_timestamp_gives_infinite_velocity
  ts x_raw window sm i tau a b :
  filtered_columns ts x_raw window = Some sm ->
  (0 < i)%nat -> (i < length ts)%nat -> (i < length x_raw)%nat ->
  nth i ts NaN = Fin tau -> nth (i - 1) ts NaN = Fin tau ->
  nth i (sm_x_filtered sm) NaN = Fin a ->
  nth (i - 1) (sm_x_filtered sm) NaN = Fin b -> a <> b ->
  isinf (nth i (sm_v_filtered sm) NaN) = true.
Proof.
  intros Hsm H0 Hit Hix Et1 Et2 Ea Eb Hab.
  destruct (filtered_columns_shape _ _ _ Hsm) as (Hx & Hv & _).
  rewrite Hv, quotient_nth
    by (rewrite ?(x_filtered_length _ _ Hx); lia).
  rewrite Et1, Et2, Ea, Eb. simpl.
  rewrite Qcplus_opp_r. change (Qceqb 0 0) with true. simpl.
  assert (Hne : a + - b <> 0).
  { intros E. apply Hab. rewrite <- (Qcplus_0_l b), <- E. ring. }
  destruct (Qceqb (a + - b) 0) eqn:E; [now apply Qceqb_eq in E|].
  now destruct (Qcltb 0 (a + - b)).
Qed.

Lemma repeated_timestamp_gives_infinite_velocity_witness :
  exists sm, filtered_columns [z 0; z 1; z 1] [z 5; z 6; z 9] 1 = Some sm /\
             isinf (nth 2 (sm_v_filtered sm) NaN) = true.
Proof.
  eexists. split; [reflexivity|].
  apply (@repeated_timestamp_gives_infinite_velocity
           [z 0; z 1; z 1] [z 5; z 6; z 9] 1 _ 2%nat
           (qc_of_Z 1) (qc_of_Z 9) (qc_of_Z 6) eq_refl);
    try reflexivity; try (simpl; lia); discriminate.
Defined.

(** ** The sampling loop of [log_data] *)

Lemma fgt_eps_log_nonzero b :
  Qcltb (frac 1 1000) b = true -> Qceqb b 0 = false.
Proof.
  intros H. destruct (Qceqb b 0) eqn:E; [|reflexivity].
  apply Qceqb_eq in E. subst b. discriminate.
Qed.

Lemma scalar_div_guarded x y :
  fgt y eps_log = true -> scalar_div x y = Some (fdiv x y).
Proof.
  destruct y as [b| | |]; simpl; intros H; try discriminate; auto.
  now rewrite (fgt_eps_log_nonzero _ H).
Qed.

Lemma log_step_first start ct d :
  log_step start initial_state ct d =
  Some ({| lr_t := round_digits 3 (fsub ct start); lr_x_raw := d;
           lr_v_raw := NaN; lr_a_raw := NaN |},
        state_after (ct, d) NaN).
Proof. reflexivity. Qed.

Lemma log_step_next start prev prev_v cur :
  log_step start (state_after prev prev_v) (fst cur) (snd cur) =
  Some (row_after start prev prev_v cur,
        state_after cur (lr_v_raw (row_after start prev prev_v cur))).
Proof.
  unfold log_step, row_after, derivatives_after, state_after; simpl.
  destruct (fgt (fsub (fst cur) (fst prev)) eps_log) eqn:E.
  - rewrite !(scalar_div_guarded _ _ E). simpl. now destruct cur.
  - simpl. now destruct cur.
Qed.

Lemma log_loop_after start samples :
  forall prev prev_v,
  exists rows,
    log_loop start (state_after prev prev_v) samples = Some rows /\
    length rows = length samples /\
    forall i, (i < length samples)%nat ->
      nth i rows missing_row =
      row_after start
        (match i with 0%nat => prev | S j => nth j samples (NaN, NaN) end)
        (match i with
         | 0%nat => prev_v
         | S j => lr_v_raw (nth j rows missing_row)
         end)
        (nth i samples (NaN, NaN)).
Proof.
  induction samples as [|cur rest IH]; intros prev prev_v.
  - exists []. repeat split; auto. simpl; lia.
  - destruct (IH cur (lr_v_raw (row_after start prev prev_v cur)))
      as (rows & Hrows & Hlen & Hnth).
    exists (row_after start prev prev_v cur :: rows).
    split; [|split].
    + simpl. destruct cur as [ct d].
      change ct with (fst (ct, d)) at 1. change d with (snd (ct, d)) at 2.
      rewrite log_step_next, Hrows. reflexivity.
    + simpl. now rewrite Hlen.
    + intros [|i] Hi; [reflexivity|]. simpl in Hi. simpl.
      rewrite (Hnth i) by lia. now destruct i.
Qed.

Lemma log_data_rows start samples :
  exists rows,
    log_data start samples = Some rows /\
    length rows = length samples /\
    forall i, (i < length samples)%nat ->
      nth i rows missing_row =
      match i with
      | 0%nat =>
          {| lr_t := round_digits 3 (fsub (fst (nth 0 samples (NaN, NaN))) start);
             lr_x_raw := snd (nth 0 samples (NaN, NaN));
             lr_v_raw := NaN; lr_a_raw := NaN |}
      | S j =>
          row_after start (nth j samples (NaN, NaN))
            (lr_v_raw (nth j rows missing_row)) (nth i samples (NaN, NaN))
      end.
Proof.
  unfold log_data. destruct samples as [|[ct d] rest].
  - exists []. repeat split; auto. simpl; lia.
  - destruct (log_loop_after start rest (ct, d) NaN)
      as (rows & Hrows & Hlen & Hnth).
    eexists. split; [|split].
    + cbn [log_loop]. rewrite log_step_first, Hrows. reflexivity.
    + simpl. now rewrite Hlen.
    + intros [|i] Hi; [reflexivity|]. simpl in Hi.
      change (nth (S i) (_ :: rows) missing_row) with (nth i rows missing_row).
      rewrite (Hnth i) by lia. now destruct i.
Qed.

(** X14.  The loop of [log_data] never raises on its own arithmetic, for
    any sequence of samples: it writes one row per sample, carrying the
    sample's distance and the elapsed time rounded to three decimals.
    (The guard [dt > 1e-3] keeps every division away from zero, and
    [prev_distance] is set whenever [prev_time] is.) *)
Theorem log_data_writes_one_row_per_sample start samples :
  exists rows,
    log_data start samples = Some rows /\
    length rows = length samples /\
    map lr_x_raw rows = map snd samples /\
    map lr_t rows =
      map (fun s => round_digits 3 (fsub (fst s) start)) samples.
Proof.
  destruct (log_data_rows start samples) as (rows & H & Hlen & Hnth).
  exists rows. split; [exact H|]. split; [exact Hlen|].
  split; apply nth_ext with (d := NaN) (d' := NaN);
    rewrite ?length_map; auto; intros i Hi.
  - rewrite nth_map_lt with (da := missing_row) by lia.
    rewrite nth_map_lt with (da := (NaN, NaN)) by lia.
    rewrite Hnth by lia. now destruct i.
  - rewrite nth_map_lt with (da := missing_row) by lia.
    rewrite nth_map_lt with (da := (NaN, NaN)) by lia.
    rewrite Hnth by lia. now destruct i.
Qed.

Lemma log_data_nth start samples rows i :
  log_data start samples = Some rows -> (i < length samples)%nat ->
  lr_v_raw (nth i rows missing_row) =
    match i with
    | 0%nat => NaN
    | S j => fst (derivatives_after (nth j samples (NaN, NaN))
                    (lr_v_raw (nth j rows missing_row))
                    (nth i samples (NaN, NaN)))
    end /\
  lr_a_raw (nth i rows missing_row) =
    match i with
    | 0%nat => NaN
    | S j => snd (derivatives_after (nth j samples (NaN, NaN))
                    (lr_v_raw (nth j rows missing_row))
                    (nth i samples (NaN, NaN)))
    end.
Proof.
  intros H Hi.
  destruct (log_data_rows start samples) as (rows' & H' & _ & Hnth).
  rewrite H in H'. injection H' as <-.
  rewrite (Hnth i Hi). now destruct i.
Qed.

(** X15.  What the loop writes: velocity and acceleration are missing for
    the first sample; for each later sample, when the time since the
    previous sample is greater than [1e-3], the velocity is
    [(distance - prev_distance) / dt] and the acceleration is
    [(velocity - prev_velocity) / dt], where [prev_velocity] is the
    velocity written for the previous sample; otherwise both are missing. *)
Theorem log_data_derivatives start samples rows :
  log_data start samples = Some rows ->
  (forall i, (0 < i < length samples)%nat ->
     (lr_v_raw (nth i rows missing_row), lr_a_raw (nth i rows missing_row)) =
     derivatives_after (nth (i - 1) samples (NaN, NaN))
       (lr_v_raw (nth (i - 1) rows missing_row))
       (nth i samples (NaN, NaN))) /\
  ((0 < length samples)%nat ->
     lr_v_raw (nth 0 rows missing_row) = NaN /\
     lr_a_raw (nth 0 rows missing_row) = NaN).
Proof.
  intros H. split.
  - intros i Hi. destruct (@log_data_nth start samples rows i H) as [Hv Ha]; [lia|].
    destruct i as [|j]; [lia|]. rewrite Hv, Ha.
    replace (S j - 1)%nat with j by lia.
    now destruct (derivatives_after _ _ _).
  - intros Hn. exact (@log_data_nth start samples rows 0%nat H Hn).
Qed.

Lemma log_data_derivatives_witness :
  exists rows, log_data (z 0) jitter_samples = Some rows /\
    (lr_v_raw (nth 1 rows missing_row), lr_a_raw (nth 1 rows missing_row)) =
    derivatives_after (nth 0 jitter_samples (NaN, NaN))
      (lr_v_raw (nth 0 rows missing_row)) (nth 1 jitter_samples (NaN, NaN)).
Proof.
  eexists. split; [reflexivity|].
  apply (proj1 (@log_data_derivatives (z 0) jitter_samples _ eq_refl) 1%nat).
  simpl; lia.
Defined.

Lemma derivatives_after_missing_velocity prev cur :
  snd (derivatives_after prev NaN cur) = NaN.
Proof.
  unfold derivatives_after. destruct (fgt _ eps_log); [|reflexivity].
  simpl. now rewrite fsub_NaN_r.
Qed.

(** X16.  The acceleration written for the second sample is always
    missing (the velocity of the first is NaN, not [None], so the test
    [prev_velocity is not None] lets it through); and a time step not
    greater than [1e-3] blanks the velocity and the acceleration of its
    own row and the acceleration of the row after it. *)
Theorem log_data_missing_accelerations start samples rows :
  log_data start samples = Some rows ->
  ((1 < length samples)%nat -> lr_a_raw (nth 1 rows missing_row) = NaN) /\
  (forall i, (0 < i < length samples)%nat ->
     fgt (fsub (fst (nth i samples (NaN, NaN)))
               (fst (nth (i - 1) samples (NaN, NaN)))) eps_log = false ->
     lr_v_raw (nth i rows missing_row) = NaN /\
     lr_a_raw (nth i rows missing_row) = NaN /\
     ((S i < length samples)%nat ->
      lr_a_raw (nth (S i) rows missing_row) = NaN)).
Proof.
  intros H. split.
  - intros Hn. destruct (@log_data_nth start samples rows 1%nat H Hn) as [_ Ha].
    destruct (@log_data_nth start samples rows 0%nat H) as [Hv0 _]; [lia|].
    rewrite Ha, Hv0. apply derivatives_after_missing_velocity.
  - intros i Hi Hshort.
    destruct (@log_data_nth start samples rows i H) as [Hv Ha]; [lia|].
    destruct i as [|j]; [lia|].
    replace (S j - 1)%nat with j in Hshort by lia.
    unfold derivatives_after in Hv, Ha. rewrite Hshort in Hv, Ha.
    simpl in Hv, Ha. split; [exact Hv|]. split; [exact Ha|].
    intros Hn. destruct (@log_data_nth start samples rows (S (S j)) H Hn) as [_ Ha'].
    rewrite Ha', Hv. apply derivatives_after_missing_velocity.
Qed.

Lemma log_data_missing_accelerations_witness :
  exists rows, log_data (z 0) jitter_samples = Some rows /\
    lr_v_raw (nth 3 rows missing_row) = NaN /\
    lr_a_raw (nth 3 rows missing_row) = NaN /\
    lr_a_raw (nth 4 rows missing_row) = NaN /\
    lr_v_raw (nth 4 rows missing_row) <> NaN.
Proof.
  eexists. split; [reflexivity|].
  destruct (proj2 (@log_data_missing_accelerations (z 0) jitter_samples _
                     eq_refl) 3%nat) as (Hv & Ha & Hnext);
    [simpl; lia | reflexivity |].
  split; [exact Hv|]. split; [exact Ha|].
  split; [apply Hnext; simpl; lia | discriminate].
Defined.

Lemma fdiv_no_inf_log x y :
  no_inf x -> no_inf y -> fgt y eps_log = true -> no_inf (fdiv x y).
Proof.
  destruct x as [a| | |], y as [b| | |]; unfold no_inf; simpl;
    intros Hx Hy Hgt; try discriminate; auto.
  now rewrite (fgt_eps_log_nonzero _ Hgt).
Qed.

Lemma derivatives_after_no_inf prev prev_v cur :
  no_inf (fst prev) -> no_inf (snd prev) -> no_inf prev_v ->
  no_inf (fst cur) -> no_inf (snd cur) ->
  no_inf (fst (derivatives_after prev prev_v cur)) /\
  no_inf (snd (derivatives_after prev prev_v cur)).
Proof.
  intros H1 H2 H3 H4 H5. unfold derivatives_after.
  destruct (fgt (fsub (fst cur) (fst prev)) eps_log) eqn:E; simpl;
    [|split; reflexivity].
  assert (Hdt : no_inf (fsub (fst cur) (fst prev))) by now apply fsub_no_inf.
  assert (Hv : no_inf (fdiv (fsub (snd cur) (snd prev))
                         (fsub (fst cur) (fst prev))))
    by (apply fdiv_no_inf_log; auto using fsub_no_inf).
  split; [exact Hv|]. apply fdiv_no_inf_log; auto using fsub_no_inf.
Qed.

(** X17.  The logger never writes an infinite velocity or acceleration:
    when no sample holds an infinite time or distance, every written
    velocity and acceleration is a number or missing. *)
Theorem log_data_writes_no_infinity start samples rows :
  Forall (fun s => no_inf (fst s) /\ no_inf (snd s)) samples ->
  log_data start samples = Some rows ->
  Forall (fun r => no_inf (lr_v_raw r) /\ no_inf (lr_a_raw r)) rows.
Proof.
  intros Hs H.
  assert (Hlen : length rows = length samples).
  { destruct (log_data_rows start samples) as (rows' & H' & L & _).
    rewrite H in H'. now injection H' as <-. }
  assert (Hsample : forall i, (i < length samples)%nat ->
            no_inf (fst (nth i samples (NaN, NaN))) /\
            no_inf (snd (nth i samples (NaN, NaN)))).
  { intros i Hi. rewrite Forall_forall in Hs. now apply Hs, nth_In. }
  assert (Hv : forall i, (i < length samples)%nat ->
            no_inf (lr_v_raw (nth i rows missing_row))).
  { intros i Hi. destruct (@log_data_nth start samples rows i H Hi) as [-> _].
    destruct i as [|j]; [reflexivity|].
    destruct (Hsample j) as [A B]; [lia|].
    destruct (Hsample (S j) Hi) as [C D].
    unfold derivatives_after.
    destruct (fgt _ eps_log) eqn:E; simpl; [|reflexivity].
    apply fdiv_no_inf_log; auto using fsub_no_inf. }
  apply Forall_nth. intros i d Hi. rewrite Hlen in Hi.
  rewrite (nth_indep rows d missing_row) by lia.
  split; [now apply Hv|].
  destruct (@log_data_nth start samples rows i H Hi) as [_ ->].
  destruct i as [|j]; [reflexivity|].
  destruct (Hsample j) as [A B]; [lia|].
  destruct (Hsample (S j) Hi) as [C D].
  apply derivatives_after_no_inf; auto. apply Hv. lia.
Qed.

Lemma log_data_writes_no_infinity_witness :
  exists rows, log_data (z 0) jitter_samples = Some rows /\
    Forall (fun r => no_inf (lr_v_raw r) /\ no_inf (lr_a_raw r)) rows.
Proof.
  eexists. split; [reflexivity|].
  apply (@log_data_writes_no_infinity (z 0) jitter_samples _);
    [repeat constructor | reflexivity].
Defined.

(** ** Python strings: [strip], [endswith] *)

Lemma lstrip_blank s : lstrip s = [] <-> blank s.
Proof.
  unfold blank. induction s as [|c s IH]; simpl.
  - split; auto.
  - destruct (isspace c) eqn:E.
    + rewrite IH. split; intros H; [now constructor | now inversion H].
    + split; [discriminate|]. intros H. inversion H; congruence.
Qed.

Lemma lstrip_starts_clean s : starts_clean (lstrip s).
Proof.
  induction s as [|c s IH]; simpl; auto.
  destruct (isspace c) eqn:E; simpl; auto.
Qed.

Lemma lstrip_fixed s : starts_clean s -> lstrip s = s.
Proof. destruct s as [|c s]; simpl; auto. now intros ->. Qed.

Lemma lstrip_snoc l c :
  isspace c = false -> exists x, lstrip (l ++ [c]) = x ++ [c].
Proof.
  intros Hc. induction l as [|d l IH]; simpl.
  - rewrite Hc. now exists [].
  - destruct (isspace d); [exact IH|]. now exists (d :: l).
Qed.

Lemma rstrip_starts_clean s : starts_clean s -> starts_clean (rstrip s).
Proof.
  unfold rstrip. destruct s as [|c s]; simpl; auto.
  intros Hc. destruct (lstrip_snoc (rev s) c Hc) as (x & ->).
  now rewrite rev_app_distr.
Qed.

Lemma strip_starts_clean s : starts_clean (strip s).
Proof. apply rstrip_starts_clean, lstrip_starts_clean. Qed.

Lemma strip_ends_clean s : starts_clean (rev (strip s)).
Proof.
  unfold strip, rstrip. rewrite rev_involutive. apply lstrip_starts_clean.
Qed.

Lemma strip_fixed s :
  starts_clean s -> starts_clean (rev s) -> strip s = s.
Proof.
  intros H1 H2. unfold strip, rstrip.
  now rewrite (lstrip_fixed _ H1), (lstrip_fixed _ H2), rev_involutive.
Qed.

Lemma blank_rev s : blank (rev s) <-> blank s.
Proof.
  unfold blank. rewrite !Forall_forall.
  split; intros H c Hc; apply H; [now apply in_rev in Hc | now apply in_rev].
Qed.

Lemma strip_blank s : strip s = [] <-> blank s.
Proof.
  unfold strip, rstrip. split.
  - intros H. apply (f_equal (@rev N)) in H.
    rewrite rev_involutive in H. simpl in H.
    apply (proj1 (lstrip_blank _)) in H.
    apply (proj1 (blank_rev _)) in H.
    apply lstrip_blank.
    pose proof (lstrip_starts_clean s) as Hc.
    destruct (lstrip s) as [|c u]; [reflexivity|].
    unfold blank in H. inversion H; subst. simpl in Hc. congruence.
  - intros H. apply lstrip_blank in H. now rewrite H.
Qed.

Lemma str_eqb_refl s : str_eqb s s = true.
Proof. induction s as [|c s IH]; simpl; auto. now rewrite N.eqb_refl. Qed.

Lemma endswith_app a d : endswith (a ++ d) d = true.
Proof.
  unfold endswith. rewrite length_app.
  replace (length a + length d - length d)%nat with (length a) by lia.
  rewrite skipn_app, skipn_all, Nat.sub_diag. simpl.
  rewrite str_eqb_refl. apply andb_true_iff. split; [|reflexivity].
  apply Nat.leb_le. lia.
Qed.

(** ** [clean_name] *)

Lemma invalid_not_space c : is_invalid c = true -> isspace c = false.
Proof.
  unfold is_invalid. simpl. intros H.
  repeat (apply orb_true_iff in H; destruct H as [H|H];
          [apply N.eqb_eq in H; subst; reflexivity|]).
  discriminate.
Qed.

Lemma replace_invalid_space c :
  isspace (if is_invalid c then 95%N else c) = isspace c.
Proof.
  destruct (is_invalid c) eqn:E; [|reflexivity].
  now rewrite (invalid_not_space _ E).
Qed.

Lemma replace_invalid_valid name :
  Forall (fun c => is_invalid c = false) (replace_invalid name).
Proof.
  apply Forall_forall. intros c Hc. apply in_map_iff in Hc.
  destruct Hc as (d & <- & _). now destruct (is_invalid d) eqn:E.
Qed.

Lemma replace_invalid_fixed name :
  Forall (fun c => is_invalid c = false) name -> replace_invalid name = name.
Proof.
  induction 1 as [|c s Hc _ IH]; simpl; auto. now rewrite Hc, IH.
Qed.

Lemma replace_invalid_starts_clean name :
  starts_clean name -> starts_clean (replace_invalid name).
Proof.
  destruct name as [|c s]; simpl; auto.
  now rewrite replace_invalid_space.
Qed.

Lemma replace_invalid_ends_clean name :
  starts_clean (rev name) -> starts_clean (rev (replace_invalid name)).
Proof.
  unfold replace_invalid. rewrite <- map_rev.
  apply replace_invalid_starts_clean.
Qed.

Lemma dot_csv_valid : Forall (fun c => is_invalid c = false) dot_csv.
Proof. repeat constructor. Qed.

(** What [clean_name] returns, in terms of the stripped, substituted name. *)
Lemma clean_name_cases name :
  let m := replace_invalid (strip name) in
  (m = [] /\ clean_name name = []) \/
  (m <> [] /\ endswith (lower m) dot_csv = true /\ clean_name name = m) \/
  (m <> [] /\ endswith (lower m) dot_csv = false /\
   clean_name name = m ++ dot_csv).
Proof.
  unfold clean_name. destruct (replace_invalid (strip name)) as [|c m] eqn:E.
  - now left.
  - right. destruct (endswith (lower (c :: m)) dot_csv) eqn:F; simpl.
    + left. repeat split; congruence.
    + right. repeat split; congruence.
Qed.

Lemma app_dot_csv_clean m :
  m <> [] -> starts_clean m ->
  starts_clean (m ++ dot_csv) /\ starts_clean (rev (m ++ dot_csv)).
Proof.
  intros Hne Hm. split.
  - destruct m; [congruence | exact Hm].
  - rewrite rev_app_distr. reflexivity.
Qed.

Lemma clean_name_invariants name :
  Forall (fun c => is_invalid c = false) (clean_name name) /\
  (clean_name name = [] \/
   endswith (lower (clean_name name)) dot_csv = true) /\
  starts_clean (clean_name name) /\ starts_clean (rev (clean_name name)).
Proof.
  pose proof (replace_invalid_valid (strip name)) as Hv.
  pose proof (replace_invalid_starts_clean _ (strip_starts_clean name)) as Hs.
  pose proof (replace_invalid_ends_clean _ (strip_ends_clean name)) as He.
  destruct (clean_name_cases name)
    as [(_ & ->)|[(Hne & Hend & ->)|(Hne & Hend & ->)]].
  - repeat split; auto.
  - repeat split; auto.
  - destruct (app_dot_csv_clean Hne Hs) as [S1 S2].
    repeat split; auto.
    + apply Forall_app. split; [exact Hv | exact dot_csv_valid].
    + right. unfold lower. rewrite map_app. apply endswith_app.
Qed.

(** X18.  [clean_name] returns the empty string, which its caller takes
    for an invalid name, exactly when the name typed is empty or made of
    whitespace only. *)
Theorem clean_name_empty_iff_blank name : clean_name name = [] <-> blank name.
Proof.
  rewrite <- strip_blank.
  destruct (clean_name_cases name)
    as [(Hm & ->)|[(Hne & _ & ->)|(Hne & _ & ->)]].
  - split; [|reflexivity]. intros _.
    destruct (strip name); [reflexivity | discriminate Hm].
  - split; intros H; [congruence|]. rewrite H in Hne. now elim Hne.
  - split; intros H.
    + apply app_eq_nil in H. tauto.
    + rewrite H in Hne. now elim Hne.
Qed.

(** X19.  A name returned by [clean_name] holds none of the characters
    of [INVALID_FILENAME_CHARS], has no whitespace at either end and,
    unless it is empty, ends in [.csv] up to the case of the letters. *)
Theorem clean_name_is_clean name :
  Forall (fun c => is_invalid c = false) (clean_name name) /\
  strip (clean_name name) = clean_name name /\
  (clean_name name = [] \/
   endswith (lower (clean_name name)) dot_csv = true).
Proof.
  destruct (clean_name_invariants name) as (Hv & Hend & S1 & S2).
  split; [exact Hv|]. split; [now apply strip_fixed | exact Hend].
Qed.

(** X20.  [clean_name] is idempotent: cleaning a cleaned name changes
    nothing (no second [.csv] is appended). *)
Theorem clean_name_idempotent name :
  clean_name (clean_name name) = clean_name name.
Proof.
  destruct (clean_name_invariants name) as (Hv & Hend & S1 & S2).
  unfold clean_name at 1.
  rewrite (strip_fixed _ S1 S2), (replace_invalid_fixed Hv).
  destruct (clean_name name) as [|c r] eqn:E; [reflexivity|].
  destruct Hend as [Hend|Hend]; [discriminate|]. now rewrite Hend.
Qed.

(** * Further properties of [analyzer.py]: ingestion *)

(** ** The encoding fallback *)

(** X21.  [analyze] reads the table with the first encoding that parses,
    and tries an encoding only when every encoding before it raised
    [UnicodeDecodeError]: Latin-1 is used exactly when UTF-8 fails to
    decode and Latin-1 parses, and any other error of UTF-8 ends the run
    without a second attempt. *)
Theorem try_encodings_first_that_parses (T : Type)
  (read_csv : encoding -> read_outcome T) :
  (forall encodings enc df,
     try_encodings read_csv encodings = Some (enc, df) <->
     exists before after,
       encodings = before ++ enc :: after /\
       Forall (fun e => read_csv e = DecodeError) before /\
       read_csv enc = Parsed df) /\
  (forall df, load_table read_csv = Some (latin1, df) <->
     read_csv utf_8 = DecodeError /\ read_csv latin1 = Parsed df) /\
  (read_csv utf_8 = OtherError -> load_table read_csv = None).
Proof.
  split; [|split].
  - induction encodings as [|e rest IH]; intros enc df; simpl.
    + split; [discriminate|]. intros (b & a & H & _).
      now destruct b.
    + destruct (read_csv e) eqn:E.
      * split.
        -- intros H. injection H as <- <-. exists [], rest. now repeat split.
        -- intros (b & a & H & Hb & Hp). destruct b as [|e' b].
           ++ injection H as <- _. congruence.
           ++ injection H as <- _. inversion Hb; congruence.
      * rewrite IH. split.
        -- intros (b & a & -> & Hb & Hp). exists (e :: b), a.
           repeat split; auto.
        -- intros (b & a & H & Hb & Hp). destruct b as [|e' b].
           ++ injection H as <- _. congruence.
           ++ injection H as <- ->. exists b, a.
              repeat split; auto. now inversion Hb.
      * split; [discriminate|].
        intros (b & a & H & Hb & Hp). destruct b as [|e' b].
        -- injection H as <- _. congruence.
        -- injection H as <- _. inversion Hb; congruence.
  - intros df. unfold load_table; simpl.
    destruct (read_csv utf_8) eqn:E1.
    + split; [discriminate | intros [H _]; discriminate].
    + destruct (read_csv latin1) eqn:E2.
      * split; [intros H; injection H as <-; now split|].
        intros [_ H]. now injection H as <-.
      * split; [discriminate | intros [_ H]; discriminate].
      * split; [discriminate | intros [_ H]; discriminate].
    + split; [discriminate | intros [H _]; discriminate].
  - intros E. unfold load_table; simpl. now rewrite E.
Qed.

Lemma try_encodings_first_that_parses_witness :
  load_table (fun e => match e with
                       | utf_8 => @OtherError nat
                       | latin1 => Parsed 0%nat
                       end) = None.
Proof.
  apply (proj2 (proj2 (try_encodings_first_that_parses
                         (fun e => match e with
                                   | utf_8 => @OtherError nat
                                   | latin1 => Parsed 0%nat
                                   end)))).
  reflexivity.
Defined.

(** ** The header pattern *)

Lemma before_first_length x s : (length (before_first x s) <= length s)%nat.
Proof.
  induction s as [|c s IH]; simpl; [lia|].
  destruct (c =? x)%N; simpl; lia.
Qed.

Lemma before_first_In x s :
  In x s -> (length (before_first x s) < length s)%nat.
Proof.
  induction s as [|c s IH]; simpl; [tauto|].
  destruct (N.eqb_spec c x); simpl; [lia|].
  intros [H|H]; [congruence|]. specialize (IH H). lia.
Qed.

Lemma before_first_absent x s : ~ In x s -> before_first x s = s.
Proof.
  induction s as [|c s IH]; simpl; auto. intros H.
  destruct (N.eqb_spec c x); [tauto|]. rewrite IH; tauto.
Qed.

Lemma lstrip_length s : (length (lstrip s) <= length s)%nat.
Proof.
  induction s as [|c s IH]; simpl; [lia|].
  destruct (isspace c); simpl; lia.
Qed.

Lemma lstrip_In c s : In c (lstrip s) -> In c s.
Proof.
  induction s as [|d s IH]; simpl; auto.
  destruct (isspace d); simpl; auto.
Qed.

Lemma existsb_eqb_In x s : existsb (N.eqb x) s = true -> In x s.
Proof.
  intros H. apply existsb_exists in H. destruct H as (y & Hy & E).
  apply N.eqb_eq in E. now subst.
Qed.

Lemma match_units_shorter s rest :
  match_units s = Some rest -> (length rest < length s)%nat.
Proof.
  unfold match_units. pose proof (lstrip_length s) as Hl.
  destruct (lstrip s) as [|c tl]; [discriminate|].
  destruct (c =? 40)%N; [|discriminate].
  destruct (existsb (N.eqb 41) (before_first 10 tl)) eqn:E; [|discriminate].
  intros H. injection H as <-.
  apply existsb_eqb_In, in_rev, before_first_In in E.
  pose proof (before_first_length 10 tl).
  rewrite length_app, length_rev, length_skipn.
  rewrite length_rev in E. simpl in Hl. lia.
Qed.

(** Any amount of fuel that covers the length gives the same result. *)
Lemma sub_units_fuel_enough f1 :
  forall f2 s, (length s <= f1)%nat -> (length s <= f2)%nat ->
  sub_units_fuel f1 s = sub_units_fuel f2 s.
Proof.
  induction f1 as [|f1 IH]; intros f2 s H1 H2.
  - destruct s; [|simpl in H1; lia]. now destruct f2.
  - destruct f2 as [|f2]; [destruct s; [reflexivity | simpl in H2; lia]|].
    destruct s as [|c tl]; [reflexivity|]. simpl.
    destruct (match_units (c :: tl)) as [rest|] eqn:E.
    + apply match_units_shorter in E. simpl in *. apply IH; lia.
    + f_equal. simpl in *. apply IH; lia.
Qed.

Lemma sub_units_cons c tl :
  sub_units (c :: tl) =
  match match_units (c :: tl) with
  | Some rest => sub_units rest
  | None => c :: sub_units tl
  end.
Proof.
  unfold sub_units at 1. simpl.
  destruct (match_units (c :: tl)) as [rest|] eqn:E.
  - apply match_units_shorter in E. simpl in E.
    apply sub_units_fuel_enough; lia.
  - reflexivity.
Qed.

Lemma match_units_no_open s : ~ In 40%N s -> match_units s = None.
Proof.
  intros H. unfold match_units.
  destruct (lstrip s) as [|c tl] eqn:E; [reflexivity|].
  destruct (N.eqb_spec c 40); [|reflexivity].
  exfalso. apply H, lstrip_In. rewrite E. now left.
Qed.

Lemma sub_units_no_open s : ~ In 40%N s -> sub_units s = s.
Proof.
  induction s as [|c s IH]; intros H; [reflexivity|].
  rewrite sub_units_cons, (match_units_no_open _ H).
  f_equal. apply IH. simpl in H. tauto.
Qed.

Lemma lstrip_app a b :
  lstrip (a ++ b) = if forallb isspace a then lstrip b else lstrip a ++ b.
Proof.
  induction a as [|c a IH]; simpl; [reflexivity|].
  destruct (isspace c); simpl; auto.
Qed.

Lemma forallb_blank s : forallb isspace s = true <-> blank s.
Proof. unfold blank. now rewrite forallb_forall, Forall_forall. Qed.

Lemma rstrip_blank s : blank s -> rstrip s = [].
Proof.
  intros H. unfold rstrip. apply (proj2 (blank_rev _)) in H.
  apply (proj2 (lstrip_blank _)) in H. now rewrite H.
Qed.

Lemma rstrip_cons c s :
  rstrip (c :: s) = if forallb isspace (c :: s) then [] else c :: rstrip s.
Proof.
  destruct (forallb isspace (c :: s)) eqn:E.
  - apply rstrip_blank. now apply (proj1 (forallb_blank _)).
  - unfold rstrip at 1. simpl rev. rewrite lstrip_app.
    destruct (forallb isspace (rev s)) eqn:F.
    + apply (proj1 (forallb_blank _)) in F.
      apply (proj1 (blank_rev _)) in F.
      rewrite (rstrip_blank F).
      apply (proj2 (forallb_blank _)) in F.
      simpl in E. rewrite F, andb_true_r in E.
      simpl. now rewrite E.
    + rewrite rev_app_distr. reflexivity.
Qed.

Lemma lstrip_rstrip s : lstrip (rstrip s) = rstrip (lstrip s).
Proof.
  induction s as [|c s IH]; [reflexivity|].
  rewrite rstrip_cons. simpl forallb. simpl lstrip.
  destruct (isspace c) eqn:E; simpl.
  - destruct (forallb isspace s) eqn:F.
    + apply (proj1 (forallb_blank _)) in F.
      apply (proj2 (lstrip_blank _)) in F. now rewrite F.
    + simpl. now rewrite E.
  - rewrite E, rstrip_cons. simpl. now rewrite E.
Qed.

Lemma lstrip_idempotent s : lstrip (lstrip s) = lstrip s.
Proof. apply lstrip_fixed, lstrip_starts_clean. Qed.

Lemma strip_rstrip s : strip (rstrip s) = strip s.
Proof.
  unfold strip. rewrite lstrip_rstrip. unfold rstrip at 1 2.
  now rewrite rev_involutive, lstrip_idempotent.
Qed.

Lemma match_units_closing unit :
  ~ In 10%N unit -> match_units (40%N :: unit ++ [41%N]) = Some [].
Proof.
  intros H. unfold match_units. simpl.
  assert (Hl : ~ In 10%N (unit ++ [41%N])).
  { intros Hin. apply in_app_or in Hin. destruct Hin as [Hin|[Hin|[]]];
      [tauto | discriminate]. }
  rewrite (before_first_absent _ _ Hl).
  rewrite existsb_app. simpl. rewrite orb_true_r.
  rewrite rev_app_distr. simpl. now rewrite skipn_all.
Qed.

Lemma match_units_blank_prefix a b :
  forallb isspace a = true -> match_units (a ++ b) = match_units b.
Proof. intros H. unfold match_units. now rewrite lstrip_app, H. Qed.

Lemma match_units_prefix_none a b :
  ~ In 40%N a -> forallb isspace a = false -> match_units (a ++ b) = None.
Proof.
  intros Ha H. unfold match_units. rewrite lstrip_app, H.
  destruct (lstrip a) as [|d tl] eqn:E.
  - apply (proj1 (lstrip_blank _)) in E.
    apply (proj2 (forallb_blank _)) in E. congruence.
  - cbn [app]. cbv beta iota. destruct (d =? 40)%N eqn:D; [|reflexivity].
    apply N.eqb_eq in D. subst d.
    exfalso. apply Ha, lstrip_In. rewrite E. now left.
Qed.

Lemma sub_units_with_unit name unit :
  ~ In 40%N name -> ~ In 10%N unit ->
  sub_units (name ++ 40%N :: unit ++ [41%N]) = rstrip name.
Proof.
  intros Hname Hunit. induction name as [|c name IH].
  - simpl app. rewrite sub_units_cons, (match_units_closing _ Hunit).
    reflexivity.
  - rewrite rstrip_cons.
    change ((c :: name) ++ 40%N :: unit ++ [41%N])
      with (c :: (name ++ 40%N :: unit ++ [41%N])).
    rewrite sub_units_cons.
    change (c :: (name ++ 40%N :: unit ++ [41%N]))
      with ((c :: name) ++ 40%N :: unit ++ [41%N]).
    destruct (forallb isspace (c :: name)) eqn:F.
    + rewrite (match_units_blank_prefix _ _ F).
      now rewrite (match_units_closing _ Hunit).
    + rewrite (match_units_prefix_none _ _ Hname F).
      f_equal. apply IH. simpl in Hname. tauto.
Qed.

(** X22.  The header normalization: a header without an opening
    parenthesis is only stripped of surrounding whitespace, and a header
    [name (unit)] becomes [name] stripped, whatever the unit (parentheses
    included) as long as it holds no newline. *)
Theorem normalize_header_removes_unit :
  (forall h, ~ In 40%N h -> normalize_header h = strip h) /\
  (forall name unit, ~ In 40%N name -> ~ In 10%N unit ->
     normalize_header (with_unit name unit) = strip name).
Proof.
  split.
  - intros h H. unfold normalize_header. now rewrite sub_units_no_open.
  - intros name unit Hn Hu. unfold normalize_header, with_unit.
    change (code_points " ("%string) with [32%N; 40%N].
    change (code_points ")"%string) with [41%N].
    replace (name ++ [32%N; 40%N] ++ unit ++ [41%N])
      with ((name ++ [32%N]) ++ 40%N :: unit ++ [41%N])
      by (rewrite <- app_assoc; reflexivity).
    rewrite sub_units_with_unit; auto.
    + unfold rstrip at 1. rewrite rev_app_distr. simpl.
      fold (rstrip name). apply strip_rstrip.
    + intros Hin. apply in_app_or in Hin.
      destruct Hin as [Hin|[Hin|[]]]; [tauto | discriminate].
Qed.

Lemma normalize_header_removes_unit_witness :
  normalize_header (code_points "x_raw (cm)"%string)
  = code_points "x_raw"%string.
Proof.
  change (code_points "x_raw (cm)"%string)
    with (with_unit (code_points "x_raw"%string) (code_points "cm"%string)).
  rewrite (proj2 normalize_header_removes_unit);
    [reflexivity | |];
    intros H; simpl in H;
    repeat (destruct H as [H|H]; [discriminate|]); exact H.
Defined.

(** ** The required columns *)

Lemma str_eqb_eq a : forall b, str_eqb a b = true <-> a = b.
Proof.
  induction a as [|x a IH]; intros [|y b]; simpl;
    try (split; [discriminate | congruence]); [tauto|].
  rewrite andb_true_iff, N.eqb_eq, IH.
  split; [intros [-> ->]; reflexivity | intros H; injection H; auto].
Qed.

Lemma existsb_str_eqb name columns :
  existsb (str_eqb name) columns = true <-> In name columns.
Proof.
  rewrite existsb_exists. split.
  - intros (c & Hc & E). apply str_eqb_eq in E. now subst.
  - intros H. exists name. split; [assumption | apply str_eqb_refl].
Qed.

Lemma normalize_columns_In name headers :
  In name (normalize_columns headers) <->
  exists h, In h headers /\
    name = (if str_eqb (normalize_header h) (code_points "x_raw"%string)
            then code_points "distance"%string else normalize_header h).
Proof.
  unfold normalize_columns. rewrite in_map_iff. cbv zeta.
  split; intros (h & A & B); exists h; auto.
Qed.

Lemma required_columns_found headers ht hx :
  In ht headers -> normalize_header ht = code_points "t"%string ->
  In hx headers ->
  normalize_header hx = code_points "distance"%string \/
  normalize_header hx = code_points "x_raw"%string ->
  has_required_columns (normalize_columns headers) = true.
Proof.
  intros Ht Et Hx Ex. unfold has_required_columns.
  apply andb_true_iff. split; apply existsb_str_eqb, normalize_columns_In.
  - exists ht. split; [assumption|]. now rewrite Et.
  - exists hx. split; [assumption|]. destruct Ex as [-> | ->]; reflexivity.
Qed.

(** X23.  The validation accepts a table exactly when some header
    normalizes to [t] and some header normalizes to [distance] or to
    [x_raw]. *)
Theorem required_columns_iff headers :
  has_required_columns (normalize_columns headers) = true <->
  (exists h, In h headers /\ normalize_header h = code_points "t"%string) /\
  (exists h, In h headers /\
     (normalize_header h = code_points "distance"%string \/
      normalize_header h = code_points "x_raw"%string)).
Proof.
  split.
  - unfold has_required_columns. rewrite andb_true_iff.
    rewrite !existsb_str_eqb, !normalize_columns_In.
    intros [(ht & Ht & Et) (hx & Hx & Ex)]. split.
    + exists ht. split; [assumption|].
      destruct (str_eqb (normalize_header ht) (code_points "x_raw"%string));
        [discriminate | now symmetry].
    + exists hx. split; [assumption|].
      destruct (str_eqb (normalize_header hx) (code_points "x_raw"%string))
        eqn:E; [right; now apply str_eqb_eq | left; now symmetry].
  - intros [(ht & Ht & Et) (hx & Hx & Ex)].
    exact (required_columns_found _ _ _ Ht Et Hx Ex).
Qed.

(** X24.  A header row that starts with [t (unit)] and [x_raw (unit)],
    as the distance logger writes it, passes the validation whatever the
    units and the remaining headers are, and the two columns are then
    called [t] and [distance]. *)
Theorem logger_headers_accepted ut ux rest :
  ~ In 10%N ut -> ~ In 10%N ux ->
  let columns :=
    normalize_columns
      (with_unit (code_points "t"%string) ut ::
       with_unit (code_points "x_raw"%string) ux :: rest) in
  has_required_columns columns = true /\
  nth_error columns 0 = Some (code_points "t"%string) /\
  nth_error columns 1 = Some (code_points "distance"%string).
Proof.
  intros Ht Hx.
  assert (Et : normalize_header (with_unit (code_points "t"%string) ut)
               = code_points "t"%string).
  { unfold normalize_header, with_unit.
    change (code_points "t"%string ++ code_points " ("%string ++ ut ++
            code_points ")"%string)
      with ([116%N; 32%N] ++ 40%N :: ut ++ [41%N]).
    rewrite sub_units_with_unit; [reflexivity | | assumption].
    simpl. intros [H|[H|[]]]; discriminate. }
  assert (Ex : normalize_header (with_unit (code_points "x_raw"%string) ux)
               = code_points "x_raw"%string).
  { unfold normalize_header, with_unit.
    change (code_points "x_raw"%string ++ code_points " ("%string ++ ux ++
            code_points ")"%string)
      with ([120%N; 95%N; 114%N; 97%N; 119%N; 32%N] ++ 40%N :: ux ++ [41%N]).
    rewrite sub_units_with_unit; [reflexivity | | assumption].
    simpl. intros H. repeat (destruct H as [H|H]; [discriminate|]). exact H. }
  cbv zeta. split; [|split].
  - eapply required_columns_found;
      [left; reflexivity | exact Et | right; left; reflexivity | now right].
  - unfold normalize_columns. cbn [map nth_error]. cbv zeta.
    now rewrite Et.
  - unfold normalize_columns. cbn [map nth_error]. cbv zeta.
    now rewrite Ex.
Qed.

Lemma logger_headers_accepted_witness :
  let columns :=
    normalize_columns
      [code_points "t (s)"%string; code_points "x_raw (cm)"%string;
       code_points "v_raw (cm/s)"%string;
       code_points "a_raw (cm/s^2)"%string] in
  has_required_columns columns = true /\
  nth_error columns 0 = Some (code_points "t"%string) /\
  nth_error columns 1 = Some (code_points "distance"%string).
Proof.
  apply (@logger_headers_accepted (code_points "s"%string)
           (code_points "cm"%string)
           [code_points "v_raw (cm/s)"%string;
            code_points "a_raw (cm/s^2)"%string]);
    intros H; simpl in H;
    repeat (destruct H as [H|H]; [discriminate|]); exact H.
Defined.
